(** * ID3 entropy module: a shallow embedding and its properties

    The development follows [src/decision_tree/id3/entropy/__init__.py]:
    [_eqn], [_e], [_feature_value_entropy], [feature_entropy], [p] and
    [max_info_gain_feature], over a small model of the Python and pandas
    operations these functions call.

    Numbers.  A Python/NumPy float is modelled by its IEEE-754 value space
    with exact arithmetic: a real number, the two infinities, or NaN.
    Rounding is abstracted (every finite operation is exact, and nothing
    overflows or underflows) and the two signed zeros are one value.  The
    statements below are therefore about errors, signs, zero results,
    order and what is counted; identities and upper bounds that binary64
    can miss in the last place are not stated. *)

From Stdlib Require Import List String Ascii ZArith Reals Lra Lia Bool Arith.
From Stdlib Require Import Permutation DecimalString.
Import ListNotations.

Local Open Scope string_scope.
Local Open Scope list_scope.

(** ** Python: exceptions and results *)

Module Py.

Inductive exn : Type :=
| KeyError (key : string)
| ValueError (msg : string)
| ZeroDivisionError.

Inductive result (A : Type) : Type :=
| Ok (a : A)
| Raise (e : exn).
Arguments Ok {A} a.
Arguments Raise {A} e.

Definition bind {A B} (m : result A) (k : A -> result B) : result B :=
  match m with
  | Ok a => k a
  | Raise e => Raise e
  end.

Notation "x <- m ;; k" := (bind m (fun x => k))
  (at level 61, m at next level, right associativity).

(** A list comprehension whose body may raise: evaluated left to right, the
    first exception aborts it. *)
Fixpoint mapM {A B} (f : A -> result B) (l : list A) : result (list B) :=
  match l with
  | [] => Ok []
  | x :: l' => y <- f x ;; ys <- mapM f l' ;; Ok (y :: ys)
  end.

(** *** Floats *)

Inductive float : Type :=
| Fin (r : R)
| PInf
| NInf
| NaN.

Definition fneg (x : float) : float :=
  match x with
  | Fin r => Fin (- r)
  | PInf => NInf
  | NInf => PInf
  | NaN => NaN
  end.

Definition fadd (x y : float) : float :=
  match x, y with
  | NaN, _ | _, NaN => NaN
  | Fin a, Fin b => Fin (a + b)
  | PInf, NInf | NInf, PInf => NaN
  | PInf, _ | _, PInf => PInf
  | NInf, _ | _, NInf => NInf
  end.

(** The product of a finite number and an infinity: the sign decides, and
    [0 * inf] is NaN. *)
Definition scale_inf (a : R) (pos : bool) : float :=
  match total_order_T a 0 with
  | inleft (left _) => if pos then NInf else PInf
  | inleft (right _) => NaN
  | inright _ => if pos then PInf else NInf
  end.

Definition fmul (x y : float) : float :=
  match x, y with
  | NaN, _ | _, NaN => NaN
  | Fin a, Fin b => Fin (a * b)
  | Fin a, PInf | PInf, Fin a => scale_inf a true
  | Fin a, NInf | NInf, Fin a => scale_inf a false
  | PInf, PInf | NInf, NInf => PInf
  | PInf, NInf | NInf, PInf => NInf
  end.

(** [x < y]: false as soon as one side is NaN. *)
Definition fltb (x y : float) : bool :=
  match x, y with
  | NaN, _ | _, NaN => false
  | Fin a, Fin b => if Rlt_dec a b then true else false
  | NInf, NInf | PInf, _ => false
  | NInf, _ => true
  | Fin _, PInf => true
  | Fin _, NInf => false
  end.

(** [np.log2]: [-inf] at zero (a warning, not an exception), NaN below. *)
Definition log2 (x : float) : float :=
  match x with
  | Fin r =>
      match total_order_T r 0 with
      | inleft (left _) => NaN
      | inleft (right _) => NInf
      | inright _ => Fin (ln r / ln 2)
      end
  | PInf => PInf
  | NInf => NaN
  | NaN => NaN
  end.

(** [a / b] on Python ints: true division, [ZeroDivisionError] on [b = 0]. *)
Definition truediv (a b : Z) : result float :=
  if (b =? 0)%Z then Raise ZeroDivisionError
  else Ok (Fin (IZR a / IZR b)).

(** [sum(l)]: starts from the int [0] and adds left to right. *)
Definition sum (l : list float) : float := fold_left fadd l (Fin 0).

Definition sum_int (l : list Z) : Z := fold_left Z.add l 0%Z.

(** [str(n)] of a Python int. *)
Definition str_int (z : Z) : string := NilZero.string_of_int (Z.to_int z).

(** *** sorted, min and insertion-ordered dicts *)

Section Sorted.
Context {A : Type} (key : A -> float).

(** [sorted(l, key=key)] is stable and compares keys with [<] only.  On
    keys that [<] orders totally (no NaN) every stable sort returns the
    same list; it is written here as a stable insertion sort. *)
Fixpoint insert_sorted (x : A) (l : list A) : list A :=
  match l with
  | [] => [x]
  | y :: l' =>
      if fltb (key y) (key x) then y :: insert_sorted x l'
      else x :: y :: l'
  end.

Fixpoint sorted (l : list A) : list A :=
  match l with
  | [] => []
  | x :: l' => insert_sorted x (sorted l')
  end.

(** [min(l, key=key)]: the running best is replaced only by a strictly
    smaller key, so the first minimal element wins. *)
Fixpoint min_from (best : A) (l : list A) : A :=
  match l with
  | [] => best
  | x :: l' =>
      if fltb (key x) (key best) then min_from x l' else min_from best l'
  end.

Definition min (l : list A) : result A :=
  match l with
  | [] => Raise (ValueError "min() arg is an empty sequence")
  | x :: l' => Ok (min_from x l')
  end.
End Sorted.

(** A dict keeps its keys in insertion order; assigning to a key that is
    already there keeps the key's position. *)
Definition dict (V : Type) : Type := list (string * V).

Fixpoint dict_set {V} (d : dict V) (k : string) (v : V) : dict V :=
  match d with
  | [] => [(k, v)]
  | (k', v') :: d' =>
      if String.eqb k' k then (k', v) :: d' else (k', v') :: dict_set d' k v
  end.

(** [dict(items)] and the dict comprehension. *)
Definition dict_of {V} (items : list (string * V)) : dict V :=
  fold_left (fun d kv => dict_set d (fst kv) (snd kv)) items [].

Definition dict_mem {V} (d : dict V) (k : string) : bool :=
  existsb (fun kv => String.eqb (fst kv) k) d.

(** [del d[k]] *)
Definition dict_del {V} (d : dict V) (k : string) : result (dict V) :=
  if dict_mem d k
  then Ok (filter (fun kv => negb (String.eqb (fst kv) k)) d)
  else Raise (KeyError k).

Definition dict_keys {V} (d : dict V) : list string := map fst d.

(** [d.get] as the key function of [min]; [min] only asks for keys of [d],
    so the [None] of an absent key is never compared (it reads as NaN). *)
Definition dict_get (d : dict float) (k : string) : float :=
  match find (fun kv => String.eqb (fst kv) k) d with
  | Some kv => snd kv
  | None => NaN
  end.

End Py.

(** ** pandas: tables, label vectors and the operations the module calls *)

Module Pandas.
Import Py.

(** A cell holds a categorical token: a string, or a non-string token such
    as an int code. *)
Inductive value : Type :=
| VStr (s : string)
| VInt (z : Z).

Definition value_eq_dec (a b : value) : {a = b} + {a <> b}.
Proof.
  decide equality; [apply string_dec | apply Z.eq_dec].
Defined.

(** Python's [==] between two cells: a string never equals an int. *)
Definition value_eqb (a b : value) : bool :=
  if value_eq_dec a b then true else false.

(** [str(v)] *)
Definition str (v : value) : string :=
  match v with
  | VStr s => s
  | VInt z => str_int z
  end.

(** The order in which group keys are produced: ints before strings, ints
    by value, strings by code point. *)
Definition value_ltb (a b : value) : bool :=
  match a, b with
  | VInt x, VInt y => (x <? y)%Z
  | VInt _, VStr _ => true
  | VStr _, VInt _ => false
  | VStr s, VStr t => String.ltb s t
  end.

Fixpoint insert_value (x : value) (l : list value) : list value :=
  match l with
  | [] => [x]
  | y :: l' => if value_ltb y x then y :: insert_value x l' else x :: y :: l'
  end.

Definition sort_values (l : list value) : list value :=
  fold_right insert_value [] l.

(** The distinct values of a column, sorted: the keys of a [groupby]. *)
Definition unique (l : list value) : list value :=
  sort_values (nodup value_eq_dec l).

(** A table is an ordered list of column names and its rows; a row holds
    one cell per column, in column order.  pandas tables are rectangular;
    the functions below are total and read a cell that a short row lacks as
    [missing]. *)
Record DataFrame : Type := mkDataFrame {
  columns : list string;
  rows : list (list value)
}.

(** A named label vector, one value per row of the table it goes with. *)
Record Series : Type := mkSeries {
  name : string;
  values : list value
}.

Definition missing : value := VStr "".

Definition cell (i : nat) (r : list value) : value := nth i r missing.

Definition len (df : DataFrame) : Z := Z.of_nat (List.length (rows df)).

Fixpoint index_of (f : string) (cols : list string) : nat :=
  match cols with
  | [] => 0
  | c :: cs => if String.eqb c f then 0 else S (index_of f cs)
  end.

(** Position of the column a label selects.  An absent label is a
    [KeyError]; a label borne by several columns selects a sub-table, which
    both uses below ([df.loc] with a mask, [groupby]) reject with a
    [ValueError]. *)
Definition get_loc (cols : list string) (f : string) : result nat :=
  match count_occ string_dec cols f with
  | 0 => Raise (KeyError f)
  | 1 => Ok (index_of f cols)
  | _ => Raise (ValueError "not 1-dimensional")
  end.

(** [df[feature]] *)
Definition getitem (df : DataFrame) (feature : string) : result (list value) :=
  i <- get_loc (columns df) feature ;;
  Ok (map (cell i) (rows df)).

(** [column == v], a boolean mask *)
Definition eq_mask (column : list value) (v : value) : list bool :=
  map (fun c => value_eqb c v) column.

(** [df.loc[mask]] *)
Definition loc (df : DataFrame) (mask : list bool) : DataFrame :=
  {| columns := columns df;
     rows := map fst (filter snd (combine (rows df) mask)) |}.

(** [df.groupby(feature)], iterated: one [(key, sub-table)] pair per
    distinct value of the column, keys sorted, each sub-table holding the
    rows with that key in their order. *)
Definition groupby (df : DataFrame) (feature : string)
  : result (list (value * DataFrame)) :=
  column <- getitem df feature ;;
  Ok (map (fun k => (k, loc df (eq_mask column k))) (unique column)).

Definition insert_at {A} (n : nat) (x : A) (l : list A) : list A :=
  firstn n l ++ x :: skipn n l.

Fixpoint insert_cells (n : nat) (vals : list value) (rs : list (list value))
  : list (list value) :=
  match rs with
  | [] => []
  | r :: rs' => insert_at n (hd missing vals) r :: insert_cells n (tl vals) rs'
  end.

(** The column put in holds the label vector's values row by row.  The
    vector has one value per row of the table; the rows that a shorter
    vector leaves, which pandas fills with NaN, are outside this model
    (they read [missing]). *)
Definition insert_col (n : nat) (column : string) (y : Series) (df : DataFrame)
  : DataFrame :=
  {| columns := insert_at n column (columns df);
     rows := insert_cells n (values y) (rows df) |}.

Definition drop_cells (cols : list string) (label : string) (r : list value)
  : list value :=
  map snd (filter (fun cv => negb (String.eqb (fst cv) label)) (combine cols r)).

Definition drop_col (label : string) (df : DataFrame) : DataFrame :=
  {| columns := filter (fun c => negb (String.eqb c label)) (columns df);
     rows := map (drop_cells (columns df) label) (rows df) |}.

(** *** Table objects

    A variable holds a reference to a table object.  [copy] and [drop]
    return a new object; [insert] changes the object in place. *)

Definition ref : Type := nat.

Record heap : Type := mkHeap {
  objs : ref -> DataFrame;
  next : ref
}.

Definition M (A : Type) : Type := heap -> heap * result A.

Definition bindM {A B} (m : M A) (k : A -> M B) : M B :=
  fun h =>
    match m h with
    | (h', Ok a) => k a h'
    | (h', Raise e) => (h', Raise e)
    end.

Definition lift {A} (m : result A) : M A := fun h => (h, m).

Notation "x <~ m ;; k" := (bindM m (fun x => k))
  (at level 61, m at next level, right associativity).

Definition store (h : heap) (r : ref) (d : DataFrame) : heap :=
  {| objs := fun r' => if Nat.eqb r' r then d else objs h r';
     next := next h |}.

Definition alloc (d : DataFrame) : M ref :=
  fun h => (store {| objs := objs h; next := S (next h) |} (next h) d,
            Ok (next h)).

Definition deref (r : ref) : M DataFrame := fun h => (h, Ok (objs h r)).

(** [df.copy()] *)
Definition copy (df : ref) : M ref :=
  d <~ deref df ;; alloc d.

(** [df.insert(loc, column, value)]: refuses a column name the table
    already has ([allow_duplicates] is off), else adds the column to the
    object itself. *)
Definition insert (df : ref) (n : nat) (column : string) (value : Series)
  : M unit :=
  fun h =>
    let d := objs h df in
    if existsb (String.eqb column) (columns d)
    then (h, Raise (ValueError "cannot insert, already exists"))
    else (store h df (insert_col n column value d), Ok tt).

(** [df.drop(label, axis=1)]: a [KeyError] when no column bears the label
    ([errors='raise'] is the default), else a new table without the
    columns that do. *)
Definition drop (df : ref) (label : string) : M ref :=
  fun h =>
    let d := objs h df in
    if existsb (String.eqb label) (columns d)
    then alloc (drop_col label d) h
    else (h, Raise (KeyError label)).

End Pandas.

(** ** The entropy module *)

Module Entropy.
Import Py Pandas.

Definition _eqn (val : float) : float := fmul val (log2 val).

Definition _feature_value_entropy (values_per_label_value : list Z)
  : result float :=
  let total := sum_int values_per_label_value in
  terms <- mapM (fun i => x <- truediv i total ;; Ok (_eqn x))
                values_per_label_value ;;
  Ok (fneg (sum terms)).

Definition _e (feat_val_df : DataFrame) (label : string) : result float :=
  groups <- groupby feat_val_df label ;;
  _feature_value_entropy (map (fun g => len (snd g)) groups).

Definition p (df : DataFrame) (feature : string) (feature_value : value)
  : result float :=
  column <- getitem df feature ;;
  truediv (len (loc df (eq_mask column feature_value))) (len df).

Definition feature_entropy (df : DataFrame) (feature label : string)
  : result float :=
  groups <- groupby df feature ;;
  terms <- mapM (fun g =>
                   let '(n, feat_val_df) := g in
                   pr <- p df feature (VStr (str n)) ;;
                   en <- _e feat_val_df label ;;
                   Ok (fmul pr en))
                groups ;;
  Ok (sum terms).

Definition max_info_gain_feature (df : ref) (y : Series) : M string :=
  let label := name y in
  df <~ copy df ;;
  _ <~ insert df 0 label y ;;
  df <~ drop df "index" ;;
  d <~ deref df ;;
  lift (items <- mapM (fun f => e <- feature_entropy d f label ;; Ok (f, e))
                      (columns d) ;;
        let entropy_values := dict_of (sorted snd (dict_of items)) in
        entropy_values <- dict_del entropy_values label ;;
        min (dict_get entropy_values) (dict_keys entropy_values)).

End Entropy.

(** * Vocabulary of the statements *)

Import Py Pandas Entropy.

(** ** Closed forms over the reals *)

Definition rmap {A B} (g : A -> B) (m : result A) : result B :=
  match m with
  | Ok a => Ok (g a)
  | Raise e => Raise e
  end.

Definition Rsum (l : list R) : R := fold_right Rplus 0%R l.

(** The Shannon entropy (base 2) of a list of counts, as a real number. *)
Definition shannon_term (total c : Z) : R :=
  (IZR c / IZR total * (ln (IZR c / IZR total) / ln 2))%R.

Definition shannon (counts : list Z) : R :=
  (- Rsum (map (shannon_term (sum_int counts)) counts))%R.


(** The sizes of the label groups of a set of rows, [j] being the position
    of the label column. *)
Definition label_counts (j : nat) (rs : list (list value)) : list Z :=
  map (fun k => Z.of_nat (count_occ value_eq_dec (map (cell j) rs) k))
      (unique (map (cell j) rs)).

(** The weighted label entropy of the groups of column [i], each group
    weighted by the relative frequency of [probe k] in the column. *)
Definition weighted_term (probe : value -> value) (i j : nat)
    (rs : list (list value)) (k : value) : R :=
  (IZR (Z.of_nat (count_occ value_eq_dec (map (cell i) rs) (probe k)))
   / IZR (Z.of_nat (List.length rs))
   * shannon (label_counts j (filter (fun r => value_eqb (cell i r) k) rs)))%R.

Definition weighted_entropy (probe : value -> value) (i j : nat)
    (rs : list (list value)) : R :=
  Rsum (map (weighted_term probe i j rs) (unique (map (cell i) rs))).

(** The value [feature_entropy] asks the probability of: [str n] for the
    group key [n]. *)
Definition as_str (v : value) : value := VStr (str v).

Definition is_str (v : value) : Prop := exists s, v = VStr s.

(** The conditional entropy the code computes for column [f]. *)
Definition entropy_at (d : DataFrame) (label f : string) : R :=
  weighted_entropy as_str (index_of f (columns d))
                   (index_of label (columns d)) (rows d).

(** ** The feature entropy in the specification's words *)

(** The sum, over the distinct values [v] of a column, of a weight of [v]
    times the label entropy of the rows whose cell is [v]. *)
Definition conditional_entropy (weight : value -> result float)
    (table : DataFrame) (feature label : string) : result float :=
  column <- getitem table feature ;;
  terms <- mapM (fun v =>
                   let subtable_v := loc table (eq_mask column v) in
                   pr <- weight v ;;
                   en <- _e subtable_v label ;;
                   Ok (fmul pr en))
                (unique column) ;;
  Ok (sum terms).

(** The feature entropy as the specification words it: the weight of [v]
    is [p table feature v]. *)
Definition spec_feature_entropy (table : DataFrame) (feature label : string)
  : result float :=
  conditional_entropy (fun v => p table feature v) table feature label.

(** ** The steps of the selector *)

(** The table lines 85 to 87 build: the caller's table with the label
    column put in front and the columns named ["index"] dropped. *)
Definition working_copy (d : DataFrame) (y : Series) : DataFrame :=
  drop_col "index" (insert_col 0 (name y) y d).

(** Lines 88 to 91 of the source, on the table the variable [df] then
    refers to. *)
Definition select (d : DataFrame) (label : string) : result string :=
  items <- mapM (fun f => e <- feature_entropy d f label ;; Ok (f, e))
                (columns d) ;;
  let entropy_values := dict_of (sorted snd (dict_of items)) in
  entropy_values <- dict_del entropy_values label ;;
  min (dict_get entropy_values) (dict_keys entropy_values).

Definition mem (s : string) (l : list string) : bool :=
  existsb (String.eqb s) l.

Definition not_label (label : string) (c : string) : bool :=
  negb (String.eqb c label).

(** The columns of a working copy that are ranked: all but the label. *)
Definition candidate_columns (d : DataFrame) (label : string) : list string :=
  filter (not_label label) (columns d).

(** The candidate columns of a caller's table, in column order. *)
Definition feature_columns (d : DataFrame) : list string :=
  filter (not_label "index") (columns d).

(** The entry of column [f] in the ranking, the ranking before and after it
    is sorted, and the ranking once the label's entry is deleted. *)
Definition ranking_entry (d : DataFrame) (label f : string) : string * float :=
  (f, Fin (entropy_at d label f)).

Definition ranking_items (d : DataFrame) (label : string) : dict float :=
  map (ranking_entry d label) (columns d).

Definition ranked (d : DataFrame) (label : string) : dict float :=
  sorted snd (ranking_items d label).

Definition candidates (d : DataFrame) (label : string) : dict float :=
  filter (fun kv => negb (String.eqb (fst kv) label)) (ranked d label).

Definition fval (x : float) : R :=
  match x with
  | Fin a => a
  | _ => 0%R
  end.

(** The entries of a ranking whose entropy is [c]. *)
Definition has_key (c : R) (kv : string * float) : bool :=
  match snd kv with
  | Fin a => if Req_dec_T a c then true else false
  | _ => false
  end.

(** A predicate that no element satisfies together with one of strictly
    larger key; a stable sort keeps the order of the elements it
    selects. *)
Definition level_set {A : Type} (key : A -> float) (P : A -> bool) : Prop :=
  forall x y, P x = true -> fltb (key y) (key x) = true -> P y = false.

(** The elements whose real key is [c]. *)
Definition level {A : Type} (r : A -> R) (c : R) (x : A) : bool :=
  if Req_dec_T (r x) c then true else false.

(** ** Example tables *)

(** A heap whose object [0] is the table [d]. *)
Definition heap_of (d : DataFrame) : heap := {| objs := fun _ => d; next := 1 |}.

Definition weather : DataFrame :=
  {| columns := ["index"; "Weather"; "Wind"];
     rows := [[VInt 0; VStr "Sunny"; VStr "Weak"];
              [VInt 1; VStr "Rainy"; VStr "Weak"]] |}.

Definition weather_only : DataFrame :=
  {| columns := ["index"; "Weather"];
     rows := [[VInt 0; VStr "Sunny"]; [VInt 1; VStr "Rainy"]] |}.

Definition weather_reindexed : DataFrame :=
  {| columns := ["Weather"; "index"];
     rows := [[VStr "Sunny"; VInt 7]; [VStr "Rainy"; VInt 9]] |}.

Definition weather_no_index : DataFrame :=
  {| columns := ["Weather"];
     rows := [[VStr "Sunny"]; [VStr "Rainy"]] |}.

Definition weather_no_rows : DataFrame :=
  {| columns := ["index"; "Weather"]; rows := [] |}.

Definition index_only : DataFrame :=
  {| columns := ["index"]; rows := [[VInt 0]; [VInt 1]] |}.

Definition all_yes : DataFrame :=
  {| columns := ["Weather"; "Play"];
     rows := [[VStr "Sunny"; VStr "Yes"]; [VStr "Rainy"; VStr "Yes"]] |}.

(** A feature that splits the labels perfectly. *)
Definition sunny_rainy : DataFrame :=
  {| columns := ["Weather"; "Play"];
     rows := [[VStr "Sunny"; VStr "Yes"]; [VStr "Rainy"; VStr "No"];
              [VStr "Sunny"; VStr "Yes"]] |}.

(** The same rows in another order. *)
Definition sunny_rainy_shuffled : DataFrame :=
  {| columns := ["Weather"; "Play"];
     rows := [[VStr "Rainy"; VStr "No"]; [VStr "Sunny"; VStr "Yes"];
              [VStr "Sunny"; VStr "Yes"]] |}.

Definition index_series : Series :=
  {| name := "index"; values := [VStr "Yes"; VStr "No"] |}.

(** Two rows with the int code [0] in column ["f"] and two labels. *)
Definition coded : DataFrame :=
  {| columns := ["f"; "y"];
     rows := [[VInt 0; VStr "a"]; [VInt 0; VStr "b"]] |}.

Definition play : Series :=
  {| name := "Play"; values := [VStr "Yes"; VStr "No"] |}.

Definition play_empty : Series := {| name := "Play"; values := [] |}.

Definition wind : Series :=
  {| name := "Wind"; values := [VStr "Yes"; VStr "No"] |}.

(** * Properties *)

(** ** The result monad and list comprehensions *)

Section MapM.
Context {A B : Type}.

Lemma mapM_ok (f : A -> result B) (g : A -> B) (l : list A) :
  (forall x, In x l -> f x = Ok (g x)) -> mapM f l = Ok (map g l).
Proof.
  induction l as [|x l IH]; intros H; simpl; [reflexivity|].
  rewrite (H x (or_introl eq_refl)); simpl.
  rewrite IH by (intros z Hz; apply H; right; exact Hz).
  reflexivity.
Qed.

Lemma mapM_ext (f g : A -> result B) (l : list A) :
  (forall x, In x l -> f x = g x) -> mapM f l = mapM g l.
Proof.
  induction l as [|x l IH]; intros H; simpl; [reflexivity|].
  rewrite (H x (or_introl eq_refl)).
  rewrite IH by (intros z Hz; apply H; right; exact Hz).
  reflexivity.
Qed.

End MapM.

(** ** Exact float arithmetic *)

Lemma fold_fadd_Fin (rs : list R) (a : R) :
  fold_left fadd (map Fin rs) (Fin a) = Fin (a + Rsum rs).
Proof.
  revert a; induction rs as [|r rs IH]; intros a; simpl.
  - f_equal; lra.
  - rewrite IH. f_equal; lra.
Qed.

Lemma sum_Fin (rs : list R) : sum (map Fin rs) = Fin (Rsum rs).
Proof.
  unfold sum. rewrite fold_fadd_Fin. f_equal; lra.
Qed.




Lemma _eqn_pos (x : R) :
  (0 < x)%R -> _eqn (Fin x) = Fin (x * (ln x / ln 2)).
Proof.
  intros Hx. unfold _eqn, log2.
  destruct (total_order_T x 0) as [[H|H]|H]; try lra. reflexivity.
Qed.


Lemma truediv_ok (a b : Z) :
  b <> 0%Z -> truediv a b = Ok (Fin (IZR a / IZR b)).
Proof.
  intros Hb. unfold truediv.
  destruct (Z.eqb_spec b 0); [contradiction|reflexivity].
Qed.

Lemma fold_add_acc (l : list Z) (a : Z) :
  fold_left Z.add l a = (a + fold_left Z.add l 0)%Z.
Proof.
  revert a; induction l as [|x l IH]; intros a; simpl; [lia|].
  rewrite (IH (a + x)%Z), (IH x). lia.
Qed.

Lemma sum_int_cons (x : Z) (l : list Z) :
  sum_int (x :: l) = (x + sum_int l)%Z.
Proof. unfold sum_int; simpl. apply fold_add_acc. Qed.

(** ** Distribution entropy *)

Lemma entropy_pos_counts (total : Z) (counts : list Z) :
  (0 < total)%Z -> Forall (fun c => (0 < c)%Z) counts ->
  mapM (fun i => x <- truediv i total ;; Ok (_eqn x)) counts
  = Ok (map Fin (map (shannon_term total) counts)).
Proof.
  intros Ht Hall. rewrite map_map. apply mapM_ok.
  intros c Hc. rewrite Forall_forall in Hall. specialize (Hall c Hc).
  rewrite truediv_ok by lia. cbn [bind].
  rewrite _eqn_pos; [reflexivity|].
  apply Rdiv_lt_0_compat; apply IZR_lt; lia.
Qed.

Lemma sum_int_pos (counts : list Z) :
  counts <> [] -> Forall (fun c => (0 < c)%Z) counts -> (0 < sum_int counts)%Z.
Proof.
  intros Hne Hall. destruct counts as [|c cs]; [congruence|].
  inversion Hall as [|? ? Hc Hcs]; subst.
  rewrite sum_int_cons.
  assert (0 <= sum_int cs)%Z; [|lia].
  clear -Hcs. induction Hcs; [unfold sum_int; simpl; lia|].
  rewrite sum_int_cons. lia.
Qed.

Lemma _feature_value_entropy_pos (counts : list Z) :
  Forall (fun c => (0 < c)%Z) counts ->
  _feature_value_entropy counts = Ok (Fin (shannon counts)).
Proof.
  intros Hall. unfold _feature_value_entropy, shannon.
  destruct counts as [|c cs].
  - simpl. reflexivity.
  - assert (Ht : (0 < sum_int (c :: cs))%Z)
      by (apply sum_int_pos; [discriminate|exact Hall]).
    rewrite (entropy_pos_counts _ _ Ht Hall). cbn [bind].
    rewrite sum_Fin. reflexivity.
Qed.


(** ** Columns, masks and groups *)

Lemma filter_mask {A} (f : A -> bool) (l : list A) :
  map fst (filter snd (combine l (map f l))) = filter f l.
Proof.
  induction l as [|x l IH]; simpl; [reflexivity|].
  destruct (f x); simpl; rewrite IH; reflexivity.
Qed.

Lemma rows_loc_eq_mask (df : DataFrame) (i : nat) (v : value) :
  rows (loc df (eq_mask (map (cell i) (rows df)) v))
  = filter (fun r => value_eqb (cell i r) v) (rows df).
Proof.
  unfold loc, eq_mask; simpl. rewrite map_map. apply filter_mask.
Qed.

Lemma length_filter_cell (i : nat) (v : value) (rs : list (list value)) :
  List.length (filter (fun r => value_eqb (cell i r) v) rs)
  = count_occ value_eq_dec (map (cell i) rs) v.
Proof.
  induction rs as [|r rs IH]; simpl; [reflexivity|].
  unfold value_eqb at 1.
  destruct (value_eq_dec (cell i r) v); simpl; rewrite IH; reflexivity.
Qed.

Lemma insert_value_perm (x : value) (l : list value) :
  Permutation (insert_value x l) (x :: l).
Proof.
  induction l as [|y l IH]; simpl; [apply Permutation_refl|].
  destruct (value_ltb y x); [|apply Permutation_refl].
  eapply perm_trans; [apply perm_skip, IH|apply perm_swap].
Qed.

Lemma sort_values_perm (l : list value) : Permutation (sort_values l) l.
Proof.
  induction l as [|x l IH]; simpl; [constructor|].
  eapply perm_trans; [apply insert_value_perm|apply perm_skip, IH].
Qed.

Lemma unique_In (l : list value) (x : value) : In x (unique l) <-> In x l.
Proof.
  unfold unique. rewrite <- (nodup_In value_eq_dec l x). split; intros H.
  - eapply Permutation_in; [apply sort_values_perm|exact H].
  - eapply Permutation_in; [apply Permutation_sym, sort_values_perm|exact H].
Qed.

Lemma unique_NoDup (l : list value) : NoDup (unique l).
Proof.
  unfold unique.
  eapply Permutation_NoDup; [apply Permutation_sym, sort_values_perm|].
  apply NoDup_nodup.
Qed.








(** ** Closed forms of [_e], [p] and [feature_entropy] *)

Lemma mapM_map {A B C} (f : B -> result C) (g : A -> B) (l : list A) :
  mapM f (map g l) = mapM (fun x => f (g x)) l.
Proof.
  induction l as [|x l IH]; simpl; [reflexivity|]. rewrite IH. reflexivity.
Qed.

Lemma label_counts_pos (j : nat) (rs : list (list value)) :
  Forall (fun c => (0 < c)%Z) (label_counts j rs).
Proof.
  unfold label_counts. apply Forall_forall. intros c Hc.
  apply in_map_iff in Hc. destruct Hc as [k [<- Hk]].
  apply (proj1 (unique_In _ _)) in Hk.
  pose proof (proj1 (count_occ_In value_eq_dec _ _) Hk) as Hpos.
  lia.
Qed.

Lemma len_loc_eq_mask (df : DataFrame) (i : nat) (v : value) :
  len (loc df (eq_mask (map (cell i) (rows df)) v))
  = Z.of_nat (count_occ value_eq_dec (map (cell i) (rows df)) v).
Proof.
  unfold len. rewrite rows_loc_eq_mask, length_filter_cell. reflexivity.
Qed.

Lemma _e_counts (df : DataFrame) (label : string) (j : nat) :
  get_loc (columns df) label = Ok j ->
  _e df label = _feature_value_entropy (label_counts j (rows df)).
Proof.
  intros Hj. unfold _e, groupby, getitem. rewrite Hj. cbn [bind].
  rewrite map_map. unfold label_counts. f_equal.
  apply map_ext. intros k. cbn [snd]. apply len_loc_eq_mask.
Qed.

Lemma _e_fin (df : DataFrame) (label : string) (j : nat) :
  get_loc (columns df) label = Ok j ->
  _e df label = Ok (Fin (shannon (label_counts j (rows df)))).
Proof.
  intros Hj. rewrite (_e_counts _ _ _ Hj).
  apply _feature_value_entropy_pos, label_counts_pos.
Qed.

Lemma p_fin (df : DataFrame) (feature : string) (i : nat) (v : value) :
  get_loc (columns df) feature = Ok i -> rows df <> [] ->
  p df feature v
  = Ok (Fin (IZR (Z.of_nat (count_occ value_eq_dec (map (cell i) (rows df)) v))
             / IZR (len df))).
Proof.
  intros Hi Hne. unfold p, getitem. rewrite Hi. cbn [bind].
  rewrite len_loc_eq_mask. apply truediv_ok.
  unfold len. destruct (rows df); [congruence|simpl; lia].
Qed.

Lemma feature_entropy_fin (df : DataFrame) (feature label : string) (i j : nat) :
  get_loc (columns df) feature = Ok i ->
  get_loc (columns df) label = Ok j ->
  feature_entropy df feature label
  = Ok (Fin (weighted_entropy as_str i j (rows df))).
Proof.
  intros Hi Hj. unfold feature_entropy, groupby, getitem.
  rewrite Hi. cbn [bind]. rewrite mapM_map.
  rewrite (mapM_ok _ (fun k => Fin (weighted_term as_str i j (rows df) k))).
  - cbn [bind]. rewrite <- map_map, sum_Fin. reflexivity.
  - intros k Hk. apply (proj1 (unique_In _ _)) in Hk.
    assert (Hne : rows df <> []) by (destruct (rows df); [destruct Hk|discriminate]).
    rewrite (p_fin _ _ _ _ Hi Hne). cbn [bind].
    rewrite (_e_fin _ _ j) by exact Hj. cbn [bind fmul].
    rewrite rows_loc_eq_mask. reflexivity.
Qed.

(** ** [sorted] and [min] *)

Section SortedMin.
Context {A : Type}.

Lemma insert_sorted_perm (key : A -> float) (x : A) (l : list A) :
  Permutation (insert_sorted key x l) (x :: l).
Proof.
  induction l as [|y l IH]; simpl; [apply Permutation_refl|].
  destruct (fltb (key y) (key x)); [|apply Permutation_refl].
  eapply perm_trans; [apply perm_skip, IH|apply perm_swap].
Qed.

Lemma sorted_perm (key : A -> float) (l : list A) :
  Permutation (sorted key l) l.
Proof.
  induction l as [|x l IH]; simpl; [constructor|].
  eapply perm_trans; [apply insert_sorted_perm|apply perm_skip, IH].
Qed.

Lemma insert_sorted_stable (key : A -> float) (P : A -> bool) x l :
  level_set key P ->
  filter P (insert_sorted key x l) = filter P (x :: l).
Proof.
  intros HP. induction l as [|y l IH]; [reflexivity|].
  cbn [insert_sorted]. destruct (fltb (key y) (key x)) eqn:Hlt; [|reflexivity].
  cbn [filter] in *. rewrite IH.
  destruct (P x) eqn:Px; [|reflexivity].
  rewrite (HP x y Px Hlt). reflexivity.
Qed.

Lemma sorted_stable (key : A -> float) (P : A -> bool) l :
  level_set key P -> filter P (sorted key l) = filter P l.
Proof.
  intros HP. induction l as [|x l IH]; [reflexivity|].
  cbn [sorted]. rewrite insert_sorted_stable by exact HP.
  cbn [filter]. rewrite IH. reflexivity.
Qed.

Lemma min_from_ext (key key' : A -> float) (best : A) (l : list A) :
  (forall x, In x (best :: l) -> key x = key' x) ->
  min_from key best l = min_from key' best l.
Proof.
  revert best; induction l as [|x l IH]; intros best H; [reflexivity|].
  cbn [min_from].
  rewrite (H x), (H best) by (simpl; auto).
  destruct (fltb (key' x) (key' best)); apply IH;
    intros z [<-|Hz]; apply H; simpl; auto.
Qed.

Lemma min_ext (key key' : A -> float) (l : list A) :
  (forall x, In x l -> key x = key' x) -> min key l = min key' l.
Proof.
  intros H. destruct l as [|x l]; [reflexivity|].
  unfold min. f_equal. apply min_from_ext, H.
Qed.

Lemma min_from_In (key : A -> float) (best : A) (l : list A) :
  In (min_from key best l) (best :: l).
Proof.
  revert best; induction l as [|x l IH]; intros best; [left; reflexivity|].
  cbn [min_from]. destruct (fltb (key x) (key best)).
  - right. apply IH.
  - destruct (IH best) as [H|H]; [left; exact H|right; right; exact H].
Qed.

Lemma min_In (key : A -> float) (l : list A) (m : A) :
  min key l = Ok m -> In m l.
Proof.
  destruct l as [|x l]; [discriminate|]. intros H; inversion H.
  apply min_from_In.
Qed.

(** On finite keys [min] returns the first element whose key is least. *)
Lemma min_from_first (r : A -> R) (best : A) (l : list A) :
  exists l1 l2,
    best :: l = l1 ++ min_from (fun x => Fin (r x)) best l :: l2 /\
    (forall y, In y l1 -> (r (min_from (fun x => Fin (r x)) best l) < r y)%R) /\
    (forall y, In y l2 -> (r (min_from (fun x => Fin (r x)) best l) <= r y)%R).
Proof.
  revert best; induction l as [|x l IH]; intros best.
  - exists [], []. simpl. repeat split; intros y [].
  - cbn [min_from fltb]. destruct (Rlt_dec (r x) (r best)) as [Hlt|Hge].
    + destruct (IH x) as (l1 & l2 & Heq & H1 & H2).
      revert Heq H1 H2.
      generalize (min_from (fun x => Fin (r x)) x l) as m.
      intros m Heq H1 H2.
      assert (Hmx : (r m <= r x)%R).
      { destruct l1 as [|a l1]; simpl in Heq; inversion Heq; subst.
        - lra.
        - apply Rlt_le, H1. left; reflexivity. }
      exists (best :: l1), l2. repeat split.
      * simpl. rewrite Heq. reflexivity.
      * intros y [<-|Hy]; [lra|apply H1, Hy].
      * exact H2.
    + destruct (IH best) as (l1 & l2 & Heq & H1 & H2).
      revert Heq H1 H2.
      generalize (min_from (fun x => Fin (r x)) best l) as m.
      intros m Heq H1 H2.
      destruct l1 as [|a l1]; simpl in Heq; inversion Heq; subst.
      * exists [], (x :: l2). repeat split.
        -- intros y [].
        -- intros y [<-|Hy]; [lra|apply H2, Hy].
      * exists (a :: x :: l1), l2. repeat split.
        -- intros y [<-|[<-|Hy]].
           ++ apply H1; left; reflexivity.
           ++ assert (r m < r a)%R by (apply H1; left; reflexivity). lra.
           ++ apply H1; right; exact Hy.
        -- exact H2.
Qed.

Lemma min_map {B} (key : B -> float) (g : A -> B) (l : list A) :
  min key (map g l) = rmap g (min (fun x => key (g x)) l).
Proof.
  destruct l as [|x l]; [reflexivity|]. simpl. f_equal.
  revert x; induction l as [|y l IH]; intros x; [reflexivity|].
  simpl. destruct (fltb (key (g y)) (key (g x))); apply IH.
Qed.

Lemma filter_head_split (P : A -> bool) (l : list A) (m : A) (t : list A) :
  filter P l = m :: t ->
  exists pre post, l = pre ++ m :: post /\ forall g, In g pre -> P g = false.
Proof.
  induction l as [|x l IH]; intros H; [discriminate|].
  simpl in H. destruct (P x) eqn:Px.
  - inversion H; subst. exists [], l. split; [reflexivity|]. intros g [].
  - destruct (IH H) as (pre & post & -> & Hpre).
    exists (x :: pre), post. split; [reflexivity|].
    intros g [<-|Hg]; [exact Px|apply Hpre, Hg].
Qed.
End SortedMin.

(** ** Insertion-ordered dicts *)

Section Dict.
Context {V : Type}.

Lemma dict_set_keys (d : dict V) (k : string) (v : V) (k' : string) :
  In k' (dict_keys (dict_set d k v)) -> k' = k \/ In k' (dict_keys d).
Proof.
  induction d as [|[k0 v0] d IH]; simpl.
  - intros [<-|[]]; auto.
  - destruct (String.eqb_spec k0 k); simpl; intros [<-|H]; auto.
    destruct (IH H); auto.
Qed.

Lemma dict_set_fresh (d : dict V) (k : string) (v : V) :
  ~ In k (dict_keys d) -> dict_set d k v = d ++ [(k, v)].
Proof.
  induction d as [|[k0 v0] d IH]; simpl; intros Hn; [reflexivity|].
  destruct (String.eqb_spec k0 k) as [->|Hne]; [exfalso; auto|].
  rewrite IH by auto. reflexivity.
Qed.

Lemma fold_dict_set_keys (items : list (string * V)) (acc : dict V) k :
  In k (dict_keys (fold_left (fun d kv => dict_set d (fst kv) (snd kv))
                             items acc)) ->
  In k (dict_keys acc) \/ In k (map fst items).
Proof.
  revert acc; induction items as [|[k0 v0] items IH]; intros acc; simpl; auto.
  intros H. destruct (IH _ H) as [H'|H']; auto.
  destruct (dict_set_keys _ _ _ _ H'); auto.
Qed.

Lemma dict_of_keys (items : list (string * V)) (k : string) :
  In k (dict_keys (dict_of items)) -> In k (map fst items).
Proof.
  intros H. destruct (fold_dict_set_keys _ _ _ H) as [[]|H']; exact H'.
Qed.

Lemma fold_dict_set_nodup (items : list (string * V)) (acc : dict V) :
  NoDup (map fst (acc ++ items)) ->
  fold_left (fun d kv => dict_set d (fst kv) (snd kv)) items acc
  = acc ++ items.
Proof.
  revert acc; induction items as [|[k0 v0] items IH]; intros acc Hnd; simpl.
  - rewrite app_nil_r. reflexivity.
  - rewrite dict_set_fresh.
    + rewrite IH; rewrite <- app_assoc; [reflexivity|exact Hnd].
    + rewrite map_app in Hnd. simpl in Hnd.
      apply NoDup_remove_2 in Hnd. intros H; apply Hnd.
      apply in_or_app; left; exact H.
Qed.

Lemma dict_of_nodup (items : list (string * V)) :
  NoDup (map fst items) -> dict_of items = items.
Proof. intros H. apply (fold_dict_set_nodup items []), H. Qed.

Lemma dict_mem_In (d : dict V) (k : string) :
  dict_mem d k = true <-> In k (dict_keys d).
Proof.
  unfold dict_mem, dict_keys. rewrite existsb_exists, in_map_iff.
  split; intros [kv [H1 H2]]; exists kv.
  - apply String.eqb_eq in H2. auto.
  - split; [exact H2|apply String.eqb_eq, H1].
Qed.
End Dict.

Lemma dict_get_In (d : dict float) (k : string) (v : float) :
  NoDup (dict_keys d) -> In (k, v) d -> dict_get d k = v.
Proof.
  unfold dict_get, dict_keys.
  induction d as [|[k0 v0] d IH]; intros Hnd Hin; [destruct Hin|].
  simpl in *. inversion Hnd as [|? ? Hk0 Hd]; subst.
  destruct (String.eqb_spec k0 k) as [->|Hne].
  - destruct Hin as [H|H]; [inversion H; reflexivity|].
    exfalso; apply Hk0. apply in_map_iff. exists (k, v). auto.
  - destruct Hin as [H|H]; [inversion H; congruence|]. apply IH; assumption.
Qed.

(** ** The selector *)

Lemma mem_In (s : string) (l : list string) : mem s l = true <-> In s l.
Proof.
  unfold mem. rewrite existsb_exists. split.
  - intros [x [Hx He]]. apply String.eqb_eq in He. subst. exact Hx.
  - intros H. exists s. split; [exact H|apply String.eqb_refl].
Qed.

Lemma mem_false (s : string) (l : list string) : mem s l = false <-> ~ In s l.
Proof.
  rewrite <- mem_In. destruct (mem s l); split; congruence.
Qed.

(** What a call returns and what it leaves in the heap. *)
Lemma max_info_gain_feature_run (h : heap) (df : ref) (y : Series) :
  let d := objs h df in
  exists h',
    max_info_gain_feature df y h
    = (h', if mem (name y) (columns d)
           then Raise (ValueError "cannot insert, already exists")
           else if mem "index" (name y :: columns d)
                then select (working_copy d y) (name y)
                else Raise (KeyError "index"))
    /\ forall r, r < next h -> objs h' r = objs h r.
Proof.
  intros d. unfold max_info_gain_feature, copy, bindM, deref, alloc, insert.
  cbn [objs store next]. rewrite Nat.eqb_refl. fold d. fold (mem (name y) (columns d)).
  destruct (mem (name y) (columns d)) eqn:Hm.
  - eexists; split; [reflexivity|].
    intros r Hr. cbn [objs store].
    destruct (Nat.eqb_spec r (next h)); [lia|reflexivity].
  - unfold drop, alloc. cbn [objs store next]. rewrite Nat.eqb_refl.
    cbn [insert_col columns insert_at firstn skipn app].
    fold (mem "index" (name y :: columns d)).
    destruct (mem "index" (name y :: columns d)) eqn:Hi.
    + cbn [objs store next]. rewrite Nat.eqb_refl.
      eexists; split; [unfold lift, select, working_copy, insert_col, insert_at;
                       cbn [firstn skipn app]; reflexivity|].
      intros r Hr. cbn [objs store].
      destruct (Nat.eqb_spec r (S (next h))); [lia|].
      destruct (Nat.eqb_spec r (next h)); [lia|reflexivity].
    + eexists; split; [reflexivity|].
      intros r Hr. cbn [objs store].
      destruct (Nat.eqb_spec r (next h)); [lia|reflexivity].
Qed.

Lemma get_loc_nodup (cols : list string) (f : string) :
  NoDup cols -> In f cols -> get_loc cols f = Ok (index_of f cols).
Proof.
  intros Hnd Hin. unfold get_loc.
  pose proof (proj1 (NoDup_count_occ string_dec cols) Hnd f) as Hle.
  pose proof (proj1 (count_occ_In string_dec cols f) Hin) as Hpos.
  destruct (count_occ string_dec cols f) as [|[|n]]; [lia|reflexivity|lia].
Qed.

Lemma mapM_items_keys {V} (F : string -> result V) (l : list string) items :
  mapM (fun f => e <- F f ;; Ok (f, e)) l = Ok items -> map fst items = l.
Proof.
  revert items; induction l as [|f l IH]; intros items H; simpl in H.
  - inversion H; reflexivity.
  - destruct (F f) as [e|e]; simpl in H; [|discriminate].
    destruct (mapM _ l) as [its|e']; simpl in H; [|discriminate].
    inversion H; subst. simpl. rewrite (IH its eq_refl). reflexivity.
Qed.

Lemma sorted_keys {V} (key : string * V -> float) (l : list (string * V)) k :
  In k (map fst (sorted key l)) <-> In k (map fst l).
Proof.
  pose proof (Permutation_map fst (sorted_perm key l)) as Hp.
  split; intros H.
  - eapply Permutation_in; [exact Hp|exact H].
  - eapply Permutation_in; [apply Permutation_sym, Hp|exact H].
Qed.

(** Every key of the ranking is a column of the table. *)
Lemma ranking_keys (items : list (string * float)) (k : string) :
  In k (dict_keys (dict_of (sorted snd (dict_of items)))) ->
  In k (map fst items).
Proof.
  intros H. apply dict_of_keys in H. apply sorted_keys in H.
  apply dict_of_keys in H. exact H.
Qed.

Lemma select_keys (d : DataFrame) (label f : string) :
  select d label = Ok f -> In f (columns d) /\ f <> label.
Proof.
  unfold select. intros H.
  destruct (mapM _ (columns d)) as [items|e] eqn:Hitems; [|discriminate].
  cbn [bind] in H. unfold dict_del in H.
  destruct (dict_mem _ label); [|discriminate].
  cbn [bind] in H. apply min_In in H.
  unfold dict_keys in H. apply in_map_iff in H.
  destruct H as [kv [<- Hkv]]. apply filter_In in Hkv.
  destruct Hkv as [Hkv Hne]. split.
  - rewrite <- (mapM_items_keys _ _ _ Hitems). apply ranking_keys.
    apply in_map, Hkv.
  - apply negb_true_iff, String.eqb_neq in Hne. exact Hne.
Qed.

Lemma select_label_absent (d : DataFrame) (label : string) :
  ~ In label (columns d) -> exists e, select d label = Raise e.
Proof.
  intros Hn. unfold select.
  destruct (mapM _ (columns d)) as [items|e] eqn:Hitems; [|eexists; reflexivity].
  cbn [bind]. unfold dict_del.
  destruct (dict_mem _ label) eqn:Hm; [|eexists; reflexivity].
  exfalso. apply Hn. apply dict_mem_In, ranking_keys in Hm.
  rewrite (mapM_items_keys _ _ _ Hitems) in Hm. exact Hm.
Qed.

Lemma drop_col_columns (label : string) (d : DataFrame) (c : string) :
  In c (columns (drop_col label d)) <-> In c (columns d) /\ c <> label.
Proof.
  unfold drop_col; cbn [columns]. rewrite filter_In, negb_true_iff.
  rewrite String.eqb_neq. reflexivity.
Qed.

(** ** The selector returns the first column of least entropy *)

Lemma has_key_level (c : R) : level_set (@snd string float) (has_key c).
Proof.
  intros [k v] [k' v']. unfold has_key. cbn [snd].
  destruct v as [a| | |]; try discriminate.
  destruct (Req_dec_T a c) as [->|]; [|discriminate]. intros _.
  destruct v' as [b| | |]; cbn [fltb]; try reflexivity; try discriminate.
  destruct (Rlt_dec b c); [|discriminate]. intros _.
  destruct (Req_dec_T b c); [lra|reflexivity].
Qed.

Lemma filter_comm {A} (P Q : A -> bool) (l : list A) :
  filter P (filter Q l) = filter Q (filter P l).
Proof.
  induction l as [|x l IH]; [reflexivity|]. simpl.
  destruct (P x) eqn:Px, (Q x) eqn:Qx; simpl; rewrite ?Px, ?Qx, IH; reflexivity.
Qed.

Lemma filter_map_comm {A B} (P : B -> bool) (g : A -> B) (l : list A) :
  filter P (map g l) = map g (filter (fun x => P (g x)) l).
Proof.
  induction l as [|x l IH]; [reflexivity|]. simpl.
  destruct (P (g x)); simpl; rewrite IH; reflexivity.
Qed.

Lemma filter_none {A} (P : A -> bool) (l : list A) :
  (forall x, In x l -> P x = false) -> filter P l = [].
Proof.
  induction l as [|x l IH]; intros H; [reflexivity|]. simpl.
  rewrite (H x) by (left; reflexivity). apply IH.
  intros z Hz; apply H; right; exact Hz.
Qed.

Lemma NoDup_map_filter {A B} (g : A -> B) (P : A -> bool) (l : list A) :
  NoDup (map g l) -> NoDup (map g (filter P l)).
Proof.
  induction l as [|x l IH]; intros H; [constructor|].
  simpl in *. inversion H as [|? ? Hx Hl]; subst.
  destruct (P x); [|apply IH, Hl]. simpl. constructor; [|apply IH, Hl].
  intros Hin. apply Hx. apply in_map_iff in Hin.
  destruct Hin as [z [Hz Hin]]. apply filter_In in Hin.
  apply in_map_iff. exists z. tauto.
Qed.

Section FirstMin.
Variable d : DataFrame.
Variable label : string.
Hypothesis Hnd : NoDup (columns d).
Hypothesis Hlabel : In label (columns d).

Lemma feature_entropy_column (f : string) :
  In f (columns d) ->
  feature_entropy d f label = Ok (Fin (entropy_at d label f)).
Proof.
  intros Hf. apply feature_entropy_fin; apply get_loc_nodup; assumption.
Qed.

Lemma items_ok :
  mapM (fun f => e <- feature_entropy d f label ;; Ok (f, e)) (columns d)
  = Ok (ranking_items d label).
Proof.
  apply mapM_ok. intros f Hf.
  rewrite (feature_entropy_column f Hf). reflexivity.
Qed.

Lemma items_keys : map fst (ranking_items d label) = columns d.
Proof.
  unfold ranking_items, ranking_entry. rewrite map_map. cbn [fst].
  apply map_id.
Qed.

Lemma ranked_perm : Permutation (ranked d label) (ranking_items d label).
Proof. apply sorted_perm. Qed.

Lemma ranked_nodup : NoDup (map fst (ranked d label)).
Proof.
  eapply Permutation_NoDup;
    [apply Permutation_sym, Permutation_map, ranked_perm|].
  rewrite items_keys. exact Hnd.
Qed.

Lemma select_candidates :
  select d label
  = rmap fst (min (fun kv => Fin (fval (snd kv))) (candidates d label)).
Proof.
  unfold select. rewrite items_ok. cbn [bind].
  rewrite (dict_of_nodup (ranking_items d label))
    by (rewrite items_keys; exact Hnd).
  fold (ranked d label).
  rewrite (dict_of_nodup (ranked d label)) by exact ranked_nodup.
  unfold dict_del.
  assert (Hm : dict_mem (ranked d label) label = true).
  { apply dict_mem_In. unfold dict_keys.
    eapply Permutation_in;
      [apply Permutation_sym, Permutation_map, ranked_perm|].
    rewrite items_keys. exact Hlabel. }
  rewrite Hm. cbn [bind]. fold (candidates d label).
  unfold dict_keys. rewrite min_map. f_equal.
  apply min_ext. intros [k v] Hkv. cbn [fst snd].
  rewrite (dict_get_In (candidates d label) k v);
    [|apply NoDup_map_filter, ranked_nodup|exact Hkv].
  apply filter_In in Hkv. destruct Hkv as [Hkv _].
  apply (Permutation_in _ ranked_perm) in Hkv.
  apply in_map_iff in Hkv. destruct Hkv as [f [Hf _]].
  inversion Hf; reflexivity.
Qed.

Lemma candidates_features (c : R) :
  filter (has_key c) (candidates d label)
  = filter (has_key c) (map (ranking_entry d label) (candidate_columns d label)).
Proof.
  unfold candidates, ranked, candidate_columns.
  rewrite filter_comm, sorted_stable by apply has_key_level.
  rewrite filter_comm. f_equal. unfold ranking_items.
  rewrite filter_map_comm. reflexivity.
Qed.

Lemma candidate_of_feature (g : string) :
  In g (candidate_columns d label) ->
  In (ranking_entry d label g) (candidates d label).
Proof.
  intros Hg. apply filter_In in Hg. destruct Hg as [Hg Hne].
  apply filter_In. split; [|exact Hne].
  eapply Permutation_in; [apply Permutation_sym, ranked_perm|].
  apply in_map, Hg.
Qed.

Lemma candidate_inv (kv : string * float) :
  In kv (candidates d label) ->
  exists g, In g (candidate_columns d label) /\ kv = ranking_entry d label g.
Proof.
  intros Hkv. apply filter_In in Hkv. destruct Hkv as [Hkv Hne].
  apply (Permutation_in _ ranked_perm) in Hkv.
  apply in_map_iff in Hkv. destruct Hkv as [g [<- Hg]].
  exists g. split; [|reflexivity]. apply filter_In. auto.
Qed.

(** The selector returns a candidate column of least entropy, and the
    first such column in the table's column order. *)
Lemma select_first_min :
  candidate_columns d label <> [] ->
  exists f pre post,
    select d label = Ok f /\
    candidate_columns d label = pre ++ f :: post /\
    (forall g, In g pre -> (entropy_at d label f < entropy_at d label g)%R) /\
    (forall g, In g post -> (entropy_at d label f <= entropy_at d label g)%R).
Proof.
  intros Hne. rewrite select_candidates.
  destruct (candidates d label) as [|x l] eqn:Hc.
  { exfalso. destruct (candidate_columns d label) as [|g gs] eqn:Hf;
      [congruence|].
    assert (H : In (ranking_entry d label g) (candidates d label))
      by (apply candidate_of_feature; rewrite Hf; left; reflexivity).
    rewrite Hc in H. destruct H. }
  cbn [min rmap].
  destruct (min_from_first (fun kv => fval (snd kv)) x l)
    as (l1 & l2 & Heq & H1 & H2).
  revert Heq H1 H2.
  generalize (min_from (fun kv => Fin (fval (snd kv))) x l) as m.
  intros m Heq H1 H2. rewrite <- Hc in Heq.
  assert (Hm : In m (candidates d label)) by (rewrite Heq; apply in_elt).
  destruct (candidate_inv m Hm) as (f & Hf & ->).
  assert (Hmin : forall g, In g (candidate_columns d label) ->
                   (entropy_at d label f <= entropy_at d label g)%R).
  { intros g Hg. apply candidate_of_feature in Hg. rewrite Heq in Hg.
    apply in_app_or in Hg. destruct Hg as [Hg|[Hg|Hg]].
    - apply Rlt_le. apply (H1 _ Hg).
    - inversion Hg. lra.
    - apply (H2 _ Hg). }
  assert (Hhead : exists t,
             filter (has_key (entropy_at d label f))
                    (map (ranking_entry d label) (candidate_columns d label))
             = ranking_entry d label f :: t).
  { rewrite <- candidates_features, Heq, filter_app.
    rewrite filter_none.
    - cbn [filter app]. unfold has_key at 1. cbn [ranking_entry snd].
      destruct (Req_dec_T (entropy_at d label f) (entropy_at d label f));
        [|congruence].
      eexists; reflexivity.
    - intros y Hy. specialize (H1 y Hy).
      assert (Hyc : In y (candidates d label))
        by (rewrite Heq; apply in_or_app; auto).
      destruct (candidate_inv y Hyc) as (g & _ & ->).
      unfold has_key. cbn [ranking_entry snd fval] in *.
      destruct (Req_dec_T (entropy_at d label g) (entropy_at d label f));
        [lra|reflexivity]. }
  destruct Hhead as [t Ht]. rewrite filter_map_comm in Ht.
  apply map_eq_cons in Ht. destruct Ht as (f' & t' & Ht & Hf' & _).
  inversion Hf' as [[Hff He]]. subst f'.
  destruct (filter_head_split _ _ _ _ Ht) as (pre & post & Hsplit & Hpre).
  exists f, pre, post. repeat split.
  - exact Hsplit.
  - intros g Hg. specialize (Hpre g Hg). unfold has_key in Hpre.
    cbn [ranking_entry snd] in Hpre.
    assert (entropy_at d label f <= entropy_at d label g)%R
      by (apply Hmin; rewrite Hsplit; apply in_or_app; auto).
    destruct (Req_dec_T (entropy_at d label g) (entropy_at d label f));
      [discriminate|lra].
  - intros g Hg. apply Hmin. rewrite Hsplit.
    apply in_or_app; right; right; exact Hg.
Qed.

Lemma select_no_feature :
  candidate_columns d label = [] ->
  select d label = Raise (ValueError "min() arg is an empty sequence").
Proof.
  intros Hf. rewrite select_candidates.
  destruct (candidates d label) as [|x l] eqn:Hc; [reflexivity|].
  exfalso. assert (H : In x (candidates d label)) by (rewrite Hc; left; reflexivity).
  destruct (candidate_inv x H) as (g & Hg & _).
  rewrite Hf in Hg. destruct Hg.
Qed.
End FirstMin.

(** ** The working copy *)

Lemma not_label_filter_id (label : string) (l : list string) :
  ~ In label l -> filter (not_label label) l = l.
Proof.
  induction l as [|c l IH]; intros Hn; [reflexivity|]. simpl.
  unfold not_label at 1.
  destruct (String.eqb_spec c label) as [->|Hne]; [exfalso; apply Hn; left; reflexivity|].
  simpl. rewrite IH; [reflexivity|]. intros H; apply Hn; right; exact H.
Qed.

Lemma NoDup_filter {A} (P : A -> bool) (l : list A) :
  NoDup l -> NoDup (filter P l).
Proof.
  intros H. rewrite <- (map_id (filter P l)).
  apply NoDup_map_filter. rewrite map_id. exact H.
Qed.

Lemma working_copy_columns (d : DataFrame) (y : Series) :
  columns (working_copy d y)
  = filter (not_label "index") (name y :: columns d).
Proof. reflexivity. Qed.

Lemma working_copy_columns_fresh (d : DataFrame) (y : Series) :
  name y <> "index" ->
  columns (working_copy d y)
  = name y :: filter (not_label "index") (columns d).
Proof.
  intros Hne. rewrite working_copy_columns. cbn [filter].
  unfold not_label at 1.
  destruct (String.eqb_spec (name y) "index"); [contradiction|reflexivity].
Qed.

Lemma insert_cells_front (cols : list string) (label : string)
    (vals : list value) (rs : list (list value)) :
  label <> "index" ->
  map (drop_cells (label :: cols) "index") (insert_cells 0 vals rs)
  = insert_cells 0 vals (map (drop_cells cols "index") rs).
Proof.
  intros Hne. revert vals.
  induction rs as [|r rs IH]; intros vals; [reflexivity|].
  cbn [insert_cells map]. rewrite IH. f_equal.
  unfold insert_at, drop_cells. cbn [firstn skipn app combine filter fst].
  destruct (String.eqb_spec label "index"); [contradiction|reflexivity].
Qed.

(** Dropping the index column and attaching the label commute. *)
Lemma drop_insert_comm (d : DataFrame) (y : Series) :
  name y <> "index" ->
  working_copy d y = insert_col 0 (name y) y (drop_col "index" d).
Proof.
  intros Hne. unfold working_copy, drop_col, insert_col.
  cbn [columns rows]. f_equal.
  - unfold insert_at. cbn [firstn skipn app filter].
    destruct (String.eqb_spec (name y) "index"); [contradiction|reflexivity].
  - unfold insert_at at 1. cbn [firstn skipn app].
    apply insert_cells_front, Hne.
Qed.

Lemma working_copy_rows_nil (d : DataFrame) (y : Series) :
  rows d = [] -> rows (working_copy d y) = [].
Proof.
  unfold working_copy, drop_col, insert_col. cbn [rows].
  intros ->. reflexivity.
Qed.

Section WorkingCopy.
Variable d : DataFrame.
Variable y : Series.
Hypothesis Hnd : NoDup (columns d).
Hypothesis Hindex : In "index" (columns d).
Hypothesis Hfresh : ~ In (name y) (columns d).

Lemma label_not_index : name y <> "index".
Proof. intros E. apply Hfresh. rewrite E. exact Hindex. Qed.

Lemma working_copy_nodup : NoDup (columns (working_copy d y)).
Proof.
  rewrite working_copy_columns_fresh by exact label_not_index.
  constructor.
  - intros H. apply filter_In in H. apply Hfresh, H.
  - apply NoDup_filter, Hnd.
Qed.

Lemma working_copy_label : In (name y) (columns (working_copy d y)).
Proof.
  rewrite working_copy_columns_fresh by exact label_not_index.
  left; reflexivity.
Qed.

Lemma working_copy_features :
  candidate_columns (working_copy d y) (name y) = feature_columns d.
Proof.
  unfold candidate_columns, feature_columns.
  rewrite working_copy_columns_fresh by exact label_not_index.
  cbn [filter]. unfold not_label at 1. rewrite String.eqb_refl. cbn [negb].
  apply not_label_filter_id.
  intros H. apply filter_In in H. apply Hfresh, H.
Qed.

Lemma feature_in_working_copy (g : string) :
  In g (feature_columns d) -> In g (columns (working_copy d y)).
Proof.
  intros Hg. rewrite working_copy_columns_fresh by exact label_not_index.
  right; exact Hg.
Qed.

Lemma run_select (h : heap) (df : ref) :
  objs h df = d ->
  snd (max_info_gain_feature df y h) = select (working_copy d y) (name y).
Proof.
  intros Hd. destruct (max_info_gain_feature_run h df y) as (h' & -> & _).
  cbn [snd]. rewrite Hd.
  rewrite (proj2 (mem_false _ _) Hfresh).
  assert (Hi : mem "index" (name y :: columns d) = true)
    by (apply mem_In; right; exact Hindex).
  rewrite Hi. reflexivity.
Qed.
End WorkingCopy.

(** ** The entry point on well-formed tables *)

Section EntryPoint.
Variable h : heap.
Variable df : ref.
Variable y : Series.
Hypothesis Hnd : NoDup (columns (objs h df)).
Hypothesis Hindex : In "index" (columns (objs h df)).
Hypothesis Hfresh : ~ In (name y) (columns (objs h df)).

Lemma run_first_min :
  feature_columns (objs h df) <> [] ->
  exists f pre post,
    snd (max_info_gain_feature df y h) = Ok f /\
    feature_columns (objs h df) = pre ++ f :: post /\
    (forall g, In g pre ->
       (entropy_at (working_copy (objs h df) y) (name y) f
        < entropy_at (working_copy (objs h df) y) (name y) g)%R) /\
    (forall g, In g post ->
       (entropy_at (working_copy (objs h df) y) (name y) f
        <= entropy_at (working_copy (objs h df) y) (name y) g)%R).
Proof.
  intros Hne.
  rewrite (run_select (objs h df) y Hindex Hfresh h df eq_refl).
  rewrite <- (working_copy_features (objs h df) y Hindex Hfresh).
  apply select_first_min.
  - apply working_copy_nodup; assumption.
  - apply working_copy_label; assumption.
  - rewrite (working_copy_features (objs h df) y Hindex Hfresh). exact Hne.
Qed.

Lemma run_no_feature :
  feature_columns (objs h df) = [] ->
  snd (max_info_gain_feature df y h)
  = Raise (ValueError "min() arg is an empty sequence").
Proof.
  intros He.
  rewrite (run_select (objs h df) y Hindex Hfresh h df eq_refl).
  apply select_no_feature.
  - apply working_copy_nodup; assumption.
  - apply working_copy_label; assumption.
  - rewrite (working_copy_features (objs h df) y Hindex Hfresh). exact He.
Qed.

(** All entropies are equal: the first candidate column is returned. *)
Lemma run_all_equal (c : R) (f : string) (rest : list string) :
  (forall g, In g (feature_columns (objs h df)) ->
     entropy_at (working_copy (objs h df) y) (name y) g = c) ->
  feature_columns (objs h df) = f :: rest ->
  snd (max_info_gain_feature df y h) = Ok f.
Proof.
  intros Hall Hf.
  destruct run_first_min as (f' & pre & post & Hrun & Hsplit & Hpre & _).
  - rewrite Hf; discriminate.
  - rewrite Hrun. destruct pre as [|g pre].
    + rewrite Hf in Hsplit. inversion Hsplit. reflexivity.
    + exfalso. specialize (Hpre g (or_introl eq_refl)).
      rewrite (Hall g), (Hall f') in Hpre.
      * lra.
      * rewrite Hsplit. apply in_elt.
      * rewrite Hsplit. left; reflexivity.
Qed.

Lemma run_zero_rows (f : string) (rest : list string) :
  rows (objs h df) = [] -> feature_columns (objs h df) = f :: rest ->
  snd (max_info_gain_feature df y h) = Ok f.
Proof.
  intros Hrows. apply (run_all_equal 0%R).
  intros g _. unfold entropy_at, weighted_entropy.
  rewrite (working_copy_rows_nil (objs h df) y Hrows). reflexivity.
Qed.

Lemma run_single_feature (f : string) :
  feature_columns (objs h df) = [f] ->
  snd (max_info_gain_feature df y h) = Ok f.
Proof.
  intros Hf.
  apply (run_all_equal
           (entropy_at (working_copy (objs h df) y) (name y) f) f []);
    [|exact Hf].
  intros g Hg. rewrite Hf in Hg. destruct Hg as [<-|[]]. reflexivity.
Qed.
End EntryPoint.

(** ** The claims about [max_info_gain_feature] *)

(** C1 (as amended).  For every table that has a column named ["index"],
    distinct column names, none of them the label's name, and at least one
    column besides ["index"], [max_info_gain_feature] returns a candidate
    column [f] whose conditional entropy [feature_entropy working_copy f
    label] is least among the candidate columns, and among the columns of
    least entropy the first in the table's column order: every candidate
    before [f] has a strictly larger entropy. *)
Theorem best_feature_first_min (h : heap) (df : ref) (y : Series) :
  NoDup (columns (objs h df)) ->
  In "index" (columns (objs h df)) ->
  ~ In (name y) (columns (objs h df)) ->
  feature_columns (objs h df) <> [] ->
  exists f pre post e,
    snd (max_info_gain_feature df y h) = Ok f /\
    feature_columns (objs h df) = pre ++ f :: post /\
    feature_entropy (working_copy (objs h df) y) f (name y) = Ok (Fin e) /\
    (forall g, In g pre ->
       exists eg,
         feature_entropy (working_copy (objs h df) y) g (name y) = Ok (Fin eg)
         /\ (e < eg)%R) /\
    (forall g, In g post ->
       exists eg,
         feature_entropy (working_copy (objs h df) y) g (name y) = Ok (Fin eg)
         /\ (e <= eg)%R).
Proof.
  intros Hnd Hindex Hfresh Hne.
  destruct (run_first_min h df y Hnd Hindex Hfresh Hne)
    as (f & pre & post & Hrun & Hsplit & Hpre & Hpost).
  assert (Hcol : forall g, In g (feature_columns (objs h df)) ->
            feature_entropy (working_copy (objs h df) y) g (name y)
            = Ok (Fin (entropy_at (working_copy (objs h df) y) (name y) g))).
  { intros g Hg. apply feature_entropy_column.
    - apply working_copy_nodup; assumption.
    - apply working_copy_label; assumption.
    - apply feature_in_working_copy; assumption. }
  exists f, pre, post, (entropy_at (working_copy (objs h df) y) (name y) f).
  split; [exact Hrun|]. split; [exact Hsplit|].
  rewrite Hsplit in Hcol.
  split; [apply Hcol, in_elt|]. split.
  - intros g Hg. eexists. split; [apply Hcol, in_or_app; left; exact Hg|].
    apply Hpre, Hg.
  - intros g Hg. eexists.
    split; [apply Hcol, in_or_app; right; right; exact Hg|].
    apply Hpost, Hg.
Qed.

Lemma best_feature_first_min_weather :
  NoDup (columns (objs (heap_of weather) 0)) /\
  In "index" (columns (objs (heap_of weather) 0)) /\
  ~ In (name play) (columns (objs (heap_of weather) 0)) /\
  feature_columns (objs (heap_of weather) 0) <> [] /\
  exists f pre post e,
    snd (max_info_gain_feature 0 play (heap_of weather)) = Ok f /\
    feature_columns (objs (heap_of weather) 0) = pre ++ f :: post /\
    feature_entropy (working_copy (objs (heap_of weather) 0) play) f
                    (name play) = Ok (Fin e) /\
    (forall g, In g pre ->
       exists eg,
         feature_entropy (working_copy (objs (heap_of weather) 0) play) g
                         (name play) = Ok (Fin eg)
         /\ (e < eg)%R) /\
    (forall g, In g post ->
       exists eg,
         feature_entropy (working_copy (objs (heap_of weather) 0) play) g
                         (name play) = Ok (Fin eg)
         /\ (e <= eg)%R).
Proof.
  assert (H1 : NoDup (columns (objs (heap_of weather) 0)))
    by (repeat constructor; simpl; intuition discriminate).
  assert (H2 : In "index" (columns (objs (heap_of weather) 0)))
    by (left; reflexivity).
  assert (H3 : ~ In (name play) (columns (objs (heap_of weather) 0)))
    by (simpl; intuition discriminate).
  assert (H4 : feature_columns (objs (heap_of weather) 0) <> [])
    by discriminate.
  split; [exact H1|]. split; [exact H2|]. split; [exact H3|].
  split; [exact H4|].
  exact (best_feature_first_min (heap_of weather) 0 play H1 H2 H3 H4).
Defined.

(** C1, as stated, fails: a table with two rows and the feature column
    ["Weather"], but no column named ["index"], gets a [KeyError] and no
    feature name. *)
Lemma best_feature_needs_index_column :
  rows weather_no_index <> [] /\
  In "Weather" (columns weather_no_index) /\
  "Weather" <> "index" /\ "Weather" <> name play /\
  snd (max_info_gain_feature 0 play (heap_of weather_no_index))
  = Raise (KeyError "index").
Proof.
  split; [discriminate|]. split; [left; reflexivity|].
  split; [discriminate|]. split; [discriminate|]. reflexivity.
Qed.

(** C10.  For every table without a column named ["index"],
    [max_info_gain_feature] raises an exception, whatever the label
    vector: the entry point only succeeds on tables that have that
    column. *)
Theorem best_feature_requires_index (h : heap) (df : ref) (y : Series) :
  ~ In "index" (columns (objs h df)) ->
  exists e, snd (max_info_gain_feature df y h) = Raise e.
Proof.
  intros Hn. destruct (max_info_gain_feature_run h df y) as (h' & -> & _).
  cbn [snd].
  destruct (mem (name y) (columns (objs h df))) eqn:Hm; [eexists; reflexivity|].
  destruct (mem "index" (name y :: columns (objs h df))) eqn:Hi;
    [|eexists; reflexivity].
  apply mem_In in Hi. destruct Hi as [Hi|Hi]; [|contradiction].
  apply select_label_absent. rewrite Hi. intros H.
  apply drop_col_columns in H. destruct H as [_ H]. congruence.
Qed.

Lemma best_feature_requires_index_weather :
  ~ In "index" (columns (objs (heap_of weather_no_index) 0)) /\
  exists e,
    snd (max_info_gain_feature 0 play (heap_of weather_no_index)) = Raise e.
Proof.
  assert (H : ~ In "index" (columns (objs (heap_of weather_no_index) 0)))
    by (simpl; intuition discriminate).
  split; [exact H|].
  exact (best_feature_requires_index (heap_of weather_no_index) 0 play H).
Defined.

(** C5.  For every table and every label vector whose name is the name of
    a column of the table, [max_info_gain_feature] fails: the insertion of
    the label raises pandas' [ValueError] for an existing column name (the
    code's exception for the ambiguous-label kind), nothing is ranked and
    no column is overwritten. *)
Theorem best_feature_label_collision (h : heap) (df : ref) (y : Series) :
  In (name y) (columns (objs h df)) ->
  snd (max_info_gain_feature df y h)
  = Raise (ValueError "cannot insert, already exists") /\
  objs (fst (max_info_gain_feature df y h)) (next h) = objs h df.
Proof.
  intros Hin. unfold max_info_gain_feature, copy, bindM, deref, alloc, insert.
  cbn [objs store next]. rewrite Nat.eqb_refl.
  fold (mem (name y) (columns (objs h df))).
  rewrite (proj2 (mem_In _ _) Hin). cbn [fst snd objs store].
  rewrite Nat.eqb_refl. split; reflexivity.
Qed.

Lemma best_feature_label_collision_wind :
  In (name wind) (columns (objs (heap_of weather) 0)) /\
  snd (max_info_gain_feature 0 wind (heap_of weather))
  = Raise (ValueError "cannot insert, already exists") /\
  objs (fst (max_info_gain_feature 0 wind (heap_of weather)))
       (next (heap_of weather))
  = objs (heap_of weather) 0.
Proof.
  assert (H : In (name wind) (columns (objs (heap_of weather) 0)))
    by (right; right; left; reflexivity).
  split; [exact H|].
  exact (best_feature_label_collision (heap_of weather) 0 wind H).
Defined.

(** C9.  [max_info_gain_feature] never changes a table of the caller: every
    table object that exists before the call, the argument among them, is
    the same after it, whether the call returns or raises.  The label
    column goes into the copy made on entry. *)
Theorem best_feature_preserves_tables (h : heap) (df : ref) (y : Series)
    (r : ref) :
  r < next h ->
  objs (fst (max_info_gain_feature df y h)) r = objs h r.
Proof.
  intros Hr. destruct (max_info_gain_feature_run h df y) as (h' & -> & Hframe).
  cbn [fst]. apply Hframe, Hr.
Qed.

Lemma best_feature_preserves_weather :
  0 < next (heap_of weather) /\
  objs (fst (max_info_gain_feature 0 play (heap_of weather))) 0
  = objs (heap_of weather) 0.
Proof.
  assert (H : 0 < next (heap_of weather)) by (simpl; lia).
  split; [exact H|].
  exact (best_feature_preserves_tables (heap_of weather) 0 play 0 H).
Defined.

Lemma run_no_candidate (h : heap) (df : ref) (y : Series) :
  (forall c, In c (columns (objs h df)) -> c = "index" \/ c = name y) ->
  exists e, snd (max_info_gain_feature df y h) = Raise e.
Proof.
  intros Hall. destruct (max_info_gain_feature_run h df y) as (h' & -> & _).
  cbn [snd].
  destruct (mem (name y) (columns (objs h df))) eqn:Hm; [eexists; reflexivity|].
  destruct (mem "index" (name y :: columns (objs h df))) eqn:Hi;
    [|eexists; reflexivity].
  apply mem_false in Hm.
  assert (Hcols : filter (not_label "index") (columns (objs h df)) = []).
  { apply filter_none. intros c Hc. unfold not_label.
    destruct (Hall c Hc) as [-> | ->]; [reflexivity|contradiction]. }
  destruct (string_dec (name y) "index") as [E|Hne].
  - apply select_label_absent. rewrite E. intros H.
    apply drop_col_columns in H. destruct H as [_ H]. congruence.
  - assert (Hwc : columns (working_copy (objs h df) y) = [name y])
      by (rewrite working_copy_columns_fresh by exact Hne;
          rewrite Hcols; reflexivity).
    eexists. apply select_no_feature.
    + rewrite Hwc. repeat constructor. intros [].
    + rewrite Hwc. left; reflexivity.
    + unfold candidate_columns. rewrite Hwc. cbn [filter]. unfold not_label.
      rewrite String.eqb_refl. reflexivity.
Qed.

(** C4 (as amended).  [max_info_gain_feature] fails when the table has no
    column besides the label and ["index"] columns: an exception always
    reaches the caller, and on a table with an ["index"] column, distinct
    column names and a new label name it is the [ValueError] of [min] over
    the empty mapping.  A table without rows is not rejected: every entropy
    is [0] and, on such a table, the first candidate column is returned. *)
Theorem best_feature_empty_inputs (h : heap) (df : ref) (y : Series) :
  ((forall c, In c (columns (objs h df)) -> c = "index" \/ c = name y) ->
   exists e, snd (max_info_gain_feature df y h) = Raise e) /\
  (NoDup (columns (objs h df)) ->
   In "index" (columns (objs h df)) ->
   ~ In (name y) (columns (objs h df)) ->
   (feature_columns (objs h df) = [] ->
    snd (max_info_gain_feature df y h)
    = Raise (ValueError "min() arg is an empty sequence")) /\
   (rows (objs h df) = [] ->
    forall f rest,
      feature_columns (objs h df) = f :: rest ->
      snd (max_info_gain_feature df y h) = Ok f)).
Proof.
  split.
  - apply run_no_candidate.
  - intros Hnd Hindex Hfresh. split.
    + apply run_no_feature; assumption.
    + intros Hrows f rest Hf.
      exact (run_zero_rows h df y Hnd Hindex Hfresh f rest Hrows Hf).
Qed.

Lemma best_feature_empty_inputs_examples :
  ((forall c, In c (columns (objs (heap_of index_only) 0)) ->
      c = "index" \/ c = name play) /\
   NoDup (columns (objs (heap_of index_only) 0)) /\
   In "index" (columns (objs (heap_of index_only) 0)) /\
   ~ In (name play) (columns (objs (heap_of index_only) 0)) /\
   feature_columns (objs (heap_of index_only) 0) = [] /\
   (exists e,
      snd (max_info_gain_feature 0 play (heap_of index_only)) = Raise e) /\
   snd (max_info_gain_feature 0 play (heap_of index_only))
   = Raise (ValueError "min() arg is an empty sequence"))
  /\
  (rows (objs (heap_of weather_no_rows) 0) = [] /\
   NoDup (columns (objs (heap_of weather_no_rows) 0)) /\
   In "index" (columns (objs (heap_of weather_no_rows) 0)) /\
   ~ In (name play_empty) (columns (objs (heap_of weather_no_rows) 0)) /\
   feature_columns (objs (heap_of weather_no_rows) 0) = ["Weather"] /\
   snd (max_info_gain_feature 0 play_empty (heap_of weather_no_rows))
   = Ok "Weather").
Proof.
  assert (H1 : forall c, In c (columns (objs (heap_of index_only) 0)) ->
                 c = "index" \/ c = name play)
    by (intros c [ <- | [] ]; left; reflexivity).
  assert (G2 : NoDup (columns (objs (heap_of index_only) 0)))
    by (repeat constructor; simpl; intuition discriminate).
  assert (G3 : In "index" (columns (objs (heap_of index_only) 0)))
    by (left; reflexivity).
  assert (G4 : ~ In (name play) (columns (objs (heap_of index_only) 0)))
    by (simpl; intuition discriminate).
  assert (H2 : NoDup (columns (objs (heap_of weather_no_rows) 0)))
    by (repeat constructor; simpl; intuition discriminate).
  assert (H3 : In "index" (columns (objs (heap_of weather_no_rows) 0)))
    by (left; reflexivity).
  assert (H4 : ~ In (name play_empty)
                    (columns (objs (heap_of weather_no_rows) 0)))
    by (simpl; intuition discriminate).
  split.
  - split; [exact H1|]. split; [exact G2|]. split; [exact G3|].
    split; [exact G4|]. split; [reflexivity|]. split.
    + exact (proj1 (best_feature_empty_inputs (heap_of index_only) 0 play) H1).
    + exact (proj1 (proj2 (best_feature_empty_inputs (heap_of index_only) 0
                             play) G2 G3 G4) eq_refl).
  - repeat (split; [first [reflexivity|assumption]|]).
    exact (proj2 (proj2 (best_feature_empty_inputs (heap_of weather_no_rows) 0
                           play_empty) H2 H3 H4)
             eq_refl "Weather" [] eq_refl).
Defined.

(** C4, as stated, fails: a table with the feature column ["Weather"] and
    no row is not rejected; the call returns ["Weather"]. *)
Lemma best_feature_accepts_zero_rows :
  rows weather_no_rows = [] /\
  snd (max_info_gain_feature 0 play_empty (heap_of weather_no_rows))
  = Ok "Weather".
Proof.
  split; [reflexivity|].
  apply (run_zero_rows (heap_of weather_no_rows) 0 play_empty)
    with (rest := []).
  - repeat constructor; simpl; intuition discriminate.
  - left; reflexivity.
  - simpl; intuition discriminate.
  - reflexivity.
  - reflexivity.
Qed.

(** C6.  The column named ["index"] is never returned and does not
    influence the result: two tables that both have an ["index"] column
    and are equal once it is dropped get the same working copy and the
    same result, which is never ["index"]; and when the label's name is
    new to the table, the result is the one that the ranking of lines 88
    to 91 gives on the table without its ["index"] column, the label
    attached. *)
Theorem best_feature_ignores_index (h1 h2 : heap) (df1 df2 : ref) (y : Series) :
  In "index" (columns (objs h1 df1)) ->
  In "index" (columns (objs h2 df2)) ->
  drop_col "index" (objs h1 df1) = drop_col "index" (objs h2 df2) ->
  snd (max_info_gain_feature df1 y h1) = snd (max_info_gain_feature df2 y h2)
  /\ snd (max_info_gain_feature df1 y h1) <> Ok "index"
  /\ (~ In (name y) (columns (objs h1 df1)) ->
      working_copy (objs h1 df1) y = working_copy (objs h2 df2) y /\
      snd (max_info_gain_feature df1 y h1)
      = select (insert_col 0 (name y) y (drop_col "index" (objs h1 df1)))
               (name y)).
Proof.
  intros Hi1 Hi2 Hdrop.
  destruct (max_info_gain_feature_run h1 df1 y) as (h1' & -> & _).
  destruct (max_info_gain_feature_run h2 df2 y) as (h2' & -> & _).
  cbn [snd].
  assert (Hmem : mem (name y) (columns (objs h1 df1))
                 = mem (name y) (columns (objs h2 df2))).
  { destruct (string_dec (name y) "index") as [E|Hne].
    - rewrite E, (proj2 (mem_In _ _) Hi1), (proj2 (mem_In _ _) Hi2).
      reflexivity.
    - assert (Hiff : forall d, In (name y) (columns d) <->
                               In (name y) (columns (drop_col "index" d)))
        by (intros d; rewrite drop_col_columns; tauto).
      destruct (mem (name y) (columns (objs h1 df1))) eqn:H1;
        destruct (mem (name y) (columns (objs h2 df2))) eqn:H2;
        try reflexivity; exfalso.
      + apply mem_In, Hiff in H1. rewrite Hdrop in H1.
        apply Hiff, mem_In in H1. congruence.
      + apply mem_In, Hiff in H2. rewrite <- Hdrop in H2.
        apply Hiff, mem_In in H2. congruence. }
  rewrite <- Hmem.
  destruct (mem (name y) (columns (objs h1 df1))) eqn:Hm.
  - split; [reflexivity|]. split; [discriminate|].
    intros Hn. apply mem_In in Hm. contradiction.
  - apply mem_false in Hm.
    assert (Hne : name y <> "index") by (intros E; apply Hm; rewrite E; exact Hi1).
    rewrite (proj2 (mem_In "index" (name y :: columns (objs h1 df1))))
      by (right; exact Hi1).
    rewrite (proj2 (mem_In "index" (name y :: columns (objs h2 df2))))
      by (right; exact Hi2).
    assert (Hwc : working_copy (objs h1 df1) y = working_copy (objs h2 df2) y)
      by (rewrite !drop_insert_comm by exact Hne; rewrite Hdrop; reflexivity).
    split; [rewrite Hwc; reflexivity|]. split.
    + intros H. apply select_keys in H. destruct H as [H _].
      apply drop_col_columns in H. destruct H as [_ H]. congruence.
    + intros _. split; [exact Hwc|].
      rewrite drop_insert_comm by exact Hne. reflexivity.
Qed.

Lemma best_feature_ignores_index_weather :
  In "index" (columns (objs (heap_of weather_only) 0)) /\
  In "index" (columns (objs (heap_of weather_reindexed) 0)) /\
  drop_col "index" (objs (heap_of weather_only) 0)
  = drop_col "index" (objs (heap_of weather_reindexed) 0) /\
  snd (max_info_gain_feature 0 play (heap_of weather_only))
  = snd (max_info_gain_feature 0 play (heap_of weather_reindexed)) /\
  snd (max_info_gain_feature 0 play (heap_of weather_only)) <> Ok "index".
Proof.
  assert (H1 : In "index" (columns (objs (heap_of weather_only) 0)))
    by (left; reflexivity).
  assert (H2 : In "index" (columns (objs (heap_of weather_reindexed) 0)))
    by (right; left; reflexivity).
  assert (H3 : drop_col "index" (objs (heap_of weather_only) 0)
               = drop_col "index" (objs (heap_of weather_reindexed) 0))
    by reflexivity.
  split; [exact H1|]. split; [exact H2|]. split; [exact H3|].
  destruct (best_feature_ignores_index (heap_of weather_only)
              (heap_of weather_reindexed) 0 0 play H1 H2 H3) as (Ha & Hb & _).
  split; [exact Ha|exact Hb].
Defined.

(** ** The claims about [_feature_value_entropy] and [p] *)

Lemma shannon_single (n : Z) : (0 < n)%Z -> shannon [n] = 0%R.
Proof.
  intros Hn. unfold shannon, shannon_term.
  rewrite sum_int_cons. change (sum_int []) with 0%Z. rewrite Z.add_0_r.
  unfold Rsum. cbn [map fold_right].
  assert (Hnz : IZR n <> 0%R) by (apply not_0_IZR; lia).
  replace (IZR n / IZR n)%R with 1%R by (field; exact Hnz).
  rewrite ln_1. unfold Rdiv. lra.
Qed.

Lemma unique_constant (v : value) (column : list value) :
  column <> [] -> Forall (eq v) column -> unique column = [v].
Proof.
  intros Hne Hall. rewrite Forall_forall in Hall.
  pose proof (unique_NoDup column) as Hnd.
  assert (Hv : In v (unique column)).
  { apply unique_In. destruct column as [|a l]; [congruence|].
    left. symmetry. apply Hall. left; reflexivity. }
  assert (Hc : forall x, In x (unique column) -> x = v)
    by (intros x Hx; symmetry; apply Hall, unique_In, Hx).
  destruct (unique column) as [|a [|b l]].
  - destruct Hv.
  - rewrite (Hc a) by (left; reflexivity). reflexivity.
  - exfalso. inversion Hnd as [|? ? Ha _]; subst. apply Ha.
    rewrite (Hc a), <- (Hc b) by (simpl; auto). left; reflexivity.
Qed.

Lemma count_occ_constant (v : value) (column : list value) :
  Forall (eq v) column ->
  count_occ value_eq_dec column v = List.length column.
Proof.
  induction 1 as [|a l Ha _ IH]; [reflexivity|].
  subst a. rewrite count_occ_cons_eq by reflexivity. rewrite IH. reflexivity.
Qed.

Lemma getitem_inv (df : DataFrame) (f : string) (column : list value) :
  getitem df f = Ok column ->
  exists i, get_loc (columns df) f = Ok i /\ column = map (cell i) (rows df).
Proof.
  unfold getitem. destruct (get_loc (columns df) f) as [i|e]; [|discriminate].
  cbn [bind]. intros H; inversion H. exists i. split; reflexivity.
Qed.

(** C8.  [_feature_value_entropy [n]] is exactly [0] for every positive
    count [n]; equivalently, [_e] of a non-empty set of rows whose label
    column holds a single value is exactly [0]. *)
Theorem entropy_single_value (n : Z) (df : DataFrame) (label : string)
    (v : value) (column : list value) :
  (0 < n)%Z ->
  getitem df label = Ok column -> column <> [] -> Forall (eq v) column ->
  _feature_value_entropy [n] = Ok (Fin 0) /\ _e df label = Ok (Fin 0).
Proof.
  intros Hn Hget Hne Hall.
  assert (Hone : forall m, (0 < m)%Z ->
                   _feature_value_entropy [m] = Ok (Fin 0)).
  { intros m Hm. rewrite _feature_value_entropy_pos.
    - rewrite shannon_single by exact Hm. reflexivity.
    - constructor; [exact Hm|constructor]. }
  split; [apply Hone, Hn|].
  destruct (getitem_inv _ _ _ Hget) as (j & Hj & Hcol).
  rewrite (_e_counts _ _ _ Hj). unfold label_counts. rewrite <- Hcol.
  rewrite (unique_constant v column Hne Hall). cbn [map].
  rewrite count_occ_constant by exact Hall.
  apply Hone. destruct column; [congruence|simpl; lia].
Qed.

Lemma entropy_single_value_all_yes :
  (0 < 4)%Z /\
  getitem all_yes "Play" = Ok [VStr "Yes"; VStr "Yes"] /\
  [VStr "Yes"; VStr "Yes"] <> [] /\
  Forall (eq (VStr "Yes")) [VStr "Yes"; VStr "Yes"] /\
  _feature_value_entropy [4%Z] = Ok (Fin 0) /\
  _e all_yes "Play" = Ok (Fin 0).
Proof.
  assert (H1 : (0 < 4)%Z) by lia.
  assert (H2 : getitem all_yes "Play" = Ok [VStr "Yes"; VStr "Yes"])
    by reflexivity.
  assert (H3 : [VStr "Yes"; VStr "Yes"] <> []) by discriminate.
  assert (H4 : Forall (eq (VStr "Yes")) [VStr "Yes"; VStr "Yes"])
    by (repeat constructor).
  split; [exact H1|]. split; [exact H2|]. split; [exact H3|].
  split; [exact H4|].
  exact (entropy_single_value 4 all_yes "Play" (VStr "Yes") _ H1 H2 H3 H4).
Defined.






(** ** The claim about [feature_entropy] *)

Lemma feature_entropy_unfold (df : DataFrame) (feature label : string) :
  feature_entropy df feature label
  = conditional_entropy (fun v => p df feature (VStr (str v)))
                        df feature label.
Proof.
  unfold feature_entropy, conditional_entropy, groupby.
  destruct (getitem df feature) as [column|e]; [|reflexivity].
  cbn [bind]. rewrite mapM_map. reflexivity.
Qed.

Lemma conditional_entropy_fin (probe : value -> value) (df : DataFrame)
    (feature label : string) (i j : nat) :
  get_loc (columns df) feature = Ok i ->
  get_loc (columns df) label = Ok j ->
  conditional_entropy (fun v => p df feature (probe v)) df feature label
  = Ok (Fin (weighted_entropy probe i j (rows df))).
Proof.
  intros Hi Hj. unfold conditional_entropy, getitem.
  rewrite Hi. cbn [bind].
  rewrite (mapM_ok _ (fun k => Fin (weighted_term probe i j (rows df) k))).
  - cbn [bind]. rewrite <- map_map, sum_Fin. reflexivity.
  - intros k Hk. apply (proj1 (unique_In _ _)) in Hk.
    assert (Hne : rows df <> []) by (destruct (rows df); [destruct Hk|discriminate]).
    rewrite (p_fin _ _ _ _ Hi Hne). cbn [bind].
    rewrite (_e_fin _ _ j) by exact Hj. cbn [bind fmul].
    rewrite rows_loc_eq_mask. reflexivity.
Qed.

(** What [feature_entropy] computes: the sum, over the distinct values [v]
    of the feature column, of [p table feature (str v)] times the label
    entropy of the rows where the feature is [v].  When the column holds
    strings, [str v] is [v] and this is the sum the docstring describes,
    with [p table feature v]. *)
Theorem feature_entropy_weighted_sum (table : DataFrame)
    (feature label : string) :
  feature_entropy table feature label
  = conditional_entropy (fun v => p table feature (VStr (str v)))
                        table feature label
  /\ ((forall column, getitem table feature = Ok column ->
                      Forall is_str column) ->
      feature_entropy table feature label
      = spec_feature_entropy table feature label).
Proof.
  split; [apply feature_entropy_unfold|].
  intros Hstr. rewrite feature_entropy_unfold.
  unfold spec_feature_entropy, conditional_entropy.
  destruct (getitem table feature) as [column|e] eqn:Hget; [|reflexivity].
  cbn [bind]. specialize (Hstr column eq_refl).
  rewrite Forall_forall in Hstr.
  rewrite (mapM_ext _
             (fun v => pr <- p table feature v ;;
                       en <- _e (loc table (eq_mask column v)) label ;;
                       Ok (fmul pr en))); [reflexivity|].
  intros v Hv. apply (proj1 (unique_In _ _)) in Hv.
  destruct (Hstr v Hv) as [s ->]. reflexivity.
Qed.

Lemma feature_entropy_weighted_sum_weather :
  (forall column, getitem weather "Weather" = Ok column ->
                  Forall is_str column) /\
  feature_entropy weather "Weather" "Wind"
  = spec_feature_entropy weather "Weather" "Wind".
Proof.
  assert (H : forall column, getitem weather "Weather" = Ok column ->
                             Forall is_str column).
  { intros column Hc. inversion Hc. repeat constructor; eexists; reflexivity. }
  split; [exact H|].
  exact (proj2 (feature_entropy_weighted_sum weather "Weather" "Wind") H).
Defined.

Lemma ln_half : (ln (1 / 2) / ln 2 = -1)%R.
Proof.
  replace (1 / 2)%R with (/ 2)%R by lra.
  rewrite ln_Rinv by lra.
  assert (ln 2 <> 0)%R by (apply ln_neq_0; lra).
  field. assumption.
Qed.

Lemma shannon_even : shannon [1; 1]%Z = 1%R.
Proof.
  unfold shannon, shannon_term. change (sum_int [1; 1]%Z) with 2%Z.
  unfold Rsum. cbn [map fold_right]. rewrite ln_half. lra.
Qed.

(** C2.  The code breaks the claim on a column of int codes: for the
    column [[0; 0]] with the labels [a] and [b], the sum of
    [p table feature v] times the label entropy of the rows where the
    feature is [v] is [1], and [feature_entropy] returns [0], because the
    probability is asked for the string ["0"], which no cell equals. *)
Lemma feature_entropy_int_codes :
  feature_entropy coded "f" "y" = Ok (Fin 0) /\
  spec_feature_entropy coded "f" "y" = Ok (Fin 1) /\
  feature_entropy coded "f" "y" <> spec_feature_entropy coded "f" "y".
Proof.
  assert (Hcode : feature_entropy coded "f" "y" = Ok (Fin 0)).
  { rewrite (feature_entropy_fin coded "f" "y" 0 1) by reflexivity.
    do 2 f_equal. unfold weighted_entropy.
    change (unique (map (cell 0) (rows coded))) with [VInt 0%Z].
    unfold Rsum. cbn [map fold_right]. unfold weighted_term.
    change (count_occ value_eq_dec (map (cell 0) (rows coded))
                      (as_str (VInt 0))) with 0%nat.
    cbn [Z.of_nat]. unfold Rdiv. lra. }
  assert (Hspec : spec_feature_entropy coded "f" "y" = Ok (Fin 1)).
  { unfold spec_feature_entropy.
    rewrite (conditional_entropy_fin (fun v => v) coded "f" "y" 0 1)
      by reflexivity.
    do 2 f_equal. unfold weighted_entropy.
    change (unique (map (cell 0) (rows coded))) with [VInt 0%Z].
    unfold Rsum. cbn [map fold_right]. unfold weighted_term.
    change (count_occ value_eq_dec (map (cell 0) (rows coded)) (VInt 0))
      with 2%nat.
    change (List.length (rows coded)) with 2%nat.
    change (label_counts 1 (filter (fun r => value_eqb (cell 0 r) (VInt 0))
                                   (rows coded))) with [1; 1]%Z.
    rewrite shannon_even. change (Z.of_nat 2) with 2%Z. lra. }
  split; [exact Hcode|]. split; [exact Hspec|].
  rewrite Hcode, Hspec. intros H. inversion H. lra.
Qed.

(** * Further properties *)

(** ** Sums and logarithms *)

Lemma ln2_pos : (0 < ln 2)%R.
Proof. rewrite <- ln_1. apply ln_increasing; lra. Qed.

Lemma ln_le_minus_1 (z : R) : (0 < z)%R -> (ln z <= z - 1)%R.
Proof.
  intros Hz. pose proof (exp_ineq1_le (z - 1)) as H.
  replace (1 + (z - 1))%R with z in H by lra.
  destruct H as [H|H].
  - apply Rlt_le. rewrite <- (ln_exp (z - 1)).
    apply ln_increasing; assumption.
  - rewrite H at 1. rewrite ln_exp. lra.
Qed.

Lemma Rsum_le (A : Type) (f g : A -> R) (l : list A) :
  (forall x, In x l -> (f x <= g x)%R) ->
  (Rsum (map f l) <= Rsum (map g l))%R.
Proof.
  induction l as [|a l IH]; intros H; simpl; [lra|].
  assert (f a <= g a)%R by (apply H; left; reflexivity).
  assert (Rsum (map f l) <= Rsum (map g l))%R
    by (apply IH; intros x Hx; apply H; right; exact Hx).
  unfold Rsum in *. lra.
Qed.

Lemma count_le_total (counts : list Z) (c : Z) :
  Forall (fun c => (0 < c)%Z) counts -> In c counts ->
  (0 < c <= sum_int counts)%Z.
Proof.
  intros Hall. induction Hall as [|a l Ha Hl IH]; intros Hin; [destruct Hin|].
  rewrite sum_int_cons.
  assert (0 <= sum_int l)%Z.
  { clear -Hl. induction Hl; [unfold sum_int; simpl; lia|].
    rewrite sum_int_cons. lia. }
  destruct Hin as [->|Hin]; [lia|]. specialize (IH Hin). lia.
Qed.

Lemma shannon_term_nonpos (total c : Z) :
  (0 < c <= total)%Z -> (shannon_term total c <= 0)%R.
Proof.
  intros [Hc Hle]. unfold shannon_term.
  assert (HT : (0 < IZR total)%R) by (apply IZR_lt; lia).
  assert (HC : (0 < IZR c)%R) by (apply IZR_lt; lia).
  assert (HCT : (IZR c <= IZR total)%R) by (apply IZR_le; lia).
  set (x := (IZR c / IZR total)%R).
  assert (Hx0 : (0 < x)%R) by (apply Rdiv_lt_0_compat; assumption).
  assert (Hx1 : (x <= 1)%R).
  { unfold x. apply (Rmult_le_reg_r (IZR total)); [exact HT|].
    unfold Rdiv. rewrite Rmult_assoc, Rinv_l by lra. lra. }
  assert (Hln : (ln x <= 0)%R).
  { pose proof (ln_le_minus_1 x Hx0). lra. }
  pose proof ln2_pos as H2.
  assert (ln x / ln 2 <= 0)%R.
  { unfold Rdiv. assert (0 < / ln 2)%R by (apply Rinv_0_lt_compat; exact H2).
    nra. }
  nra.
Qed.

Lemma shannon_nonneg (counts : list Z) :
  Forall (fun c => (0 < c)%Z) counts -> (0 <= shannon counts)%R.
Proof.
  intros Hall. unfold shannon.
  assert (Rsum (map (shannon_term (sum_int counts)) counts)
          <= Rsum (map (fun _ => 0%R) counts))%R.
  { apply Rsum_le. intros c Hc. apply shannon_term_nonpos.
    apply count_le_total; assumption. }
  assert (Rsum (map (fun _ : Z => 0%R) counts) = 0%R).
  { clear. induction counts as [|c cs IH]; simpl; [reflexivity|].
    unfold Rsum in *. simpl. rewrite IH. lra. }
  lra.
Qed.

(** ** [_eqn] and [_feature_value_entropy] *)

(** X1.  On [(0, 1]] the term [x * log2 x] is a finite number, never positive,
    and [0] only at [1]. *)
Theorem _eqn_unit_interval (x : R) :
  (0 < x <= 1)%R ->
  exists r, _eqn (Fin x) = Fin r /\ (r <= 0)%R /\ (r = 0%R <-> x = 1%R).
Proof.
  intros [H0 H1]. exists (x * (ln x / ln 2))%R.
  split; [apply _eqn_pos, H0|].
  pose proof ln2_pos as H2.
  assert (Hi : (0 < / ln 2)%R) by (apply Rinv_0_lt_compat, H2).
  assert (Hln : (ln x <= 0)%R) by (pose proof (ln_le_minus_1 x H0); lra).
  unfold Rdiv.
  assert (Hq : (ln x * / ln 2 <= 0)%R) by nra.
  split; [nra|]. split.
  - intros E. destruct (Req_dec_T x 1) as [|Hne]; [assumption|exfalso].
    assert (Hlt : (ln x < 0)%R)
      by (rewrite <- ln_1; apply ln_increasing; lra).
    assert (Hq' : (ln x * / ln 2 < 0)%R) by nra.
    nra.
  - intros ->. rewrite ln_1. lra.
Qed.

Lemma _eqn_unit_interval_half :
  (0 < / 2 <= 1)%R /\
  exists r, _eqn (Fin (/ 2)) = Fin r /\ (r <= 0)%R /\ (r = 0%R <-> (/ 2 = 1)%R).
Proof.
  assert (H : (0 < / 2 <= 1)%R) by lra.
  split; [exact H|]. exact (_eqn_unit_interval (/ 2) H).
Defined.

(** X2.  At [0] and below, [x * log2 x] is NaN: [log2] gives [-inf] at [0] and
    NaN at a negative number. *)
Theorem _eqn_nonpositive (x : R) : (x <= 0)%R -> _eqn (Fin x) = NaN.
Proof.
  intros Hx. unfold _eqn, log2.
  destruct (total_order_T x 0) as [[H|H]|H]; try lra.
  - reflexivity.
  - subst x. cbn [fmul]. unfold scale_inf.
    destruct (total_order_T 0 0) as [[H'|H']|H']; try lra. reflexivity.
Qed.

Lemma _eqn_nonpositive_minus_one :
  (-1 <= 0)%R /\ _eqn (Fin (-1)) = NaN.
Proof.
  assert (H : (-1 <= 0)%R) by lra.
  split; [exact H|]. exact (_eqn_nonpositive (-1) H).
Defined.

(** X5.  When the counts add up to [0] there is nothing to divide by: the empty
    list gives [0], any other list raises [ZeroDivisionError] at its first
    count. *)
Theorem entropy_of_counts_zero_total (counts : list Z) :
  sum_int counts = 0%Z ->
  _feature_value_entropy counts
  = match counts with
    | [] => Ok (Fin 0)
    | _ :: _ => Raise ZeroDivisionError
    end.
Proof.
  intros Ht. unfold _feature_value_entropy. rewrite Ht.
  destruct counts as [|c cs].
  - cbn [mapM bind]. f_equal. unfold sum. cbn [fold_left fneg].
    f_equal. lra.
  - reflexivity.
Qed.

Lemma entropy_of_counts_zero_total_examples :
  (sum_int [] = 0%Z /\ _feature_value_entropy [] = Ok (Fin 0)) /\
  (sum_int [0; 0]%Z = 0%Z /\
   _feature_value_entropy [0; 0]%Z = Raise ZeroDivisionError).
Proof.
  split.
  - split; [reflexivity|].
    exact (entropy_of_counts_zero_total [] eq_refl).
  - split; [reflexivity|].
    exact (entropy_of_counts_zero_total [0; 0]%Z eq_refl).
Defined.

(** ** [p] *)

Lemma getitem_missing (df : DataFrame) (feature : string) :
  ~ In feature (columns df) -> getitem df feature = Raise (KeyError feature).
Proof.
  intros Hn. unfold getitem, get_loc.
  rewrite (proj1 (count_occ_not_In string_dec (columns df) feature) Hn).
  reflexivity.
Qed.

(** X6.  Asking for the probability of a value in a column the table does not
    have raises [KeyError], also when the table has no rows. *)
Theorem p_missing_column (df : DataFrame) (feature : string) (v : value) :
  ~ In feature (columns df) -> p df feature v = Raise (KeyError feature).
Proof.
  intros Hn. unfold p. rewrite (getitem_missing df feature Hn). reflexivity.
Qed.

Lemma p_missing_column_weather :
  ~ In "Humidity" (columns weather) /\
  p weather "Humidity" (VStr "High") = Raise (KeyError "Humidity").
Proof.
  assert (H : ~ In "Humidity" (columns weather))
    by (simpl; intuition discriminate).
  split; [exact H|]. exact (p_missing_column weather "Humidity" _ H).
Defined.

(** X7.  On a table without rows the probability of any value of an existing
    column is a division by zero. *)
Theorem p_empty_table (df : DataFrame) (feature : string)
    (column : list value) (v : value) :
  getitem df feature = Ok column -> rows df = [] ->
  p df feature v = Raise ZeroDivisionError.
Proof.
  intros Hget Hrows. unfold p. rewrite Hget. cbn [bind].
  unfold len at 2. rewrite Hrows. reflexivity.
Qed.

Lemma p_empty_table_weather :
  getitem weather_no_rows "Weather" = Ok [] /\
  rows weather_no_rows = [] /\
  p weather_no_rows "Weather" (VStr "Sunny") = Raise ZeroDivisionError.
Proof.
  assert (H : getitem weather_no_rows "Weather" = Ok []) by reflexivity.
  split; [exact H|]. split; [reflexivity|].
  exact (p_empty_table weather_no_rows "Weather" [] _ H eq_refl).
Defined.

(** X8.  On a table with rows the probability of a value is a number between
    [0] and [1], and it is [0] exactly for the values that do not occur in
    the column. *)
Theorem p_bounds (df : DataFrame) (feature : string) (column : list value)
    (v : value) :
  rows df <> [] -> getitem df feature = Ok column ->
  exists q,
    p df feature v = Ok (Fin q) /\ (0 <= q <= 1)%R /\
    (q = 0%R <-> ~ In v column).
Proof.
  intros Hne Hget. destruct (getitem_inv _ _ _ Hget) as (i & Hi & ->).
  rewrite (p_fin df feature i v Hi Hne). eexists. split; [reflexivity|].
  set (col := map (cell i) (rows df)).
  assert (Hlen : len df = Z.of_nat (List.length col))
    by (unfold len, col; rewrite length_map; reflexivity).
  assert (Hpos : (0 < IZR (len df))%R).
  { apply IZR_lt. unfold len. destruct (rows df); [congruence|simpl; lia]. }
  pose proof (count_occ_bound value_eq_dec v col) as Hb.
  assert (Hc0 : (0 <= IZR (Z.of_nat (count_occ value_eq_dec col v)))%R)
    by (apply IZR_le; lia).
  assert (Hc1 : (IZR (Z.of_nat (count_occ value_eq_dec col v))
                 <= IZR (len df))%R)
    by (apply IZR_le; lia).
  assert (Hi0 : (0 < / IZR (len df))%R) by (apply Rinv_0_lt_compat, Hpos).
  split; [split|].
  - unfold Rdiv. nra.
  - apply (Rmult_le_reg_r (IZR (len df))); [exact Hpos|].
    unfold Rdiv. rewrite Rmult_assoc, Rinv_l by lra. lra.
  - rewrite (count_occ_not_In value_eq_dec). split.
    + intros E. unfold Rdiv in E.
      apply Rmult_integral in E. destruct E as [E|E]; [|lra].
      apply eq_IZR in E. lia.
    + intros ->. unfold Rdiv. simpl. lra.
Qed.

Lemma p_bounds_weather :
  rows weather <> [] /\
  getitem weather "Weather" = Ok [VStr "Sunny"; VStr "Rainy"] /\
  exists q,
    p weather "Weather" (VStr "Sunny") = Ok (Fin q) /\ (0 <= q <= 1)%R /\
    (q = 0%R <-> ~ In (VStr "Sunny") [VStr "Sunny"; VStr "Rainy"]).
Proof.
  assert (H1 : rows weather <> []) by discriminate.
  assert (H2 : getitem weather "Weather" = Ok [VStr "Sunny"; VStr "Rainy"])
    by reflexivity.
  split; [exact H1|]. split; [exact H2|].
  exact (p_bounds weather "Weather" _ (VStr "Sunny") H1 H2).
Defined.

(** ** [_e] *)

(** X9.  Grouping by a label column the table does not have raises [KeyError],
    rows or not. *)
Theorem _e_missing_label (df : DataFrame) (label : string) :
  ~ In label (columns df) -> _e df label = Raise (KeyError label).
Proof.
  intros Hn. unfold _e, groupby.
  rewrite (getitem_missing df label Hn). reflexivity.
Qed.

Lemma _e_missing_label_weather :
  ~ In "Play" (columns weather) /\ _e weather "Play" = Raise (KeyError "Play").
Proof.
  assert (H : ~ In "Play" (columns weather))
    by (simpl; intuition discriminate).
  split; [exact H|]. exact (_e_missing_label weather "Play" H).
Defined.

(** X10.  When the label is a column of the table, the label entropy of
    its rows is a finite number, never negative, and [0] for a table
    without rows. *)
Theorem _e_bounds (df : DataFrame) (label : string) (column : list value) :
  getitem df label = Ok column ->
  exists e,
    _e df label = Ok (Fin e) /\ (0 <= e)%R /\ (column = [] -> e = 0%R).
Proof.
  intros Hget. destruct (getitem_inv _ _ _ Hget) as (j & Hj & ->).
  rewrite (_e_fin df label j Hj). eexists. split; [reflexivity|].
  split; [apply shannon_nonneg, label_counts_pos|].
  intros E. unfold label_counts. rewrite E.
  unfold shannon, Rsum. simpl. lra.
Qed.

Lemma _e_bounds_all_yes :
  getitem all_yes "Play" = Ok [VStr "Yes"; VStr "Yes"] /\
  exists e,
    _e all_yes "Play" = Ok (Fin e) /\ (0 <= e)%R /\
    ([VStr "Yes"; VStr "Yes"] = [] -> e = 0%R).
Proof.
  assert (H : getitem all_yes "Play" = Ok [VStr "Yes"; VStr "Yes"])
    by reflexivity.
  split; [exact H|]. exact (_e_bounds all_yes "Play" _ H).
Defined.

(** ** [feature_entropy] *)

Lemma unique_nonempty (a : value) (l : list value) : unique (a :: l) <> [].
Proof.
  intros E. assert (Hin : In a (unique (a :: l)))
    by (apply unique_In; left; reflexivity).
  rewrite E in Hin. destruct Hin.
Qed.

Lemma Rsum_zero (A : Type) (f : A -> R) (l : list A) :
  (forall x, In x l -> f x = 0%R) -> Rsum (map f l) = 0%R.
Proof.
  induction l as [|a l IH]; intros H; [reflexivity|].
  unfold Rsum in *. cbn [map fold_right].
  rewrite (H a) by (left; reflexivity).
  rewrite IH by (intros x Hx; apply H; right; exact Hx). lra.
Qed.

Lemma Rsum_nonneg (A : Type) (f : A -> R) (l : list A) :
  (forall x, In x l -> (0 <= f x)%R) -> (0 <= Rsum (map f l))%R.
Proof.
  induction l as [|a l IH]; intros H; [unfold Rsum; simpl; lra|].
  unfold Rsum in *. cbn [map fold_right].
  assert (0 <= f a)%R by (apply H; left; reflexivity).
  assert (0 <= fold_right Rplus 0 (map f l))%R
    by (apply IH; intros x Hx; apply H; right; exact Hx).
  lra.
Qed.

Lemma weight_nonneg (probe : value -> value) (i : nat)
    (rs : list (list value)) (k : value) :
  rs <> [] ->
  (0 <= IZR (Z.of_nat (count_occ value_eq_dec (map (cell i) rs) (probe k)))
        / IZR (Z.of_nat (List.length rs)))%R.
Proof.
  intros Hne.
  assert (0 < IZR (Z.of_nat (List.length rs)))%R
    by (apply IZR_lt; destruct rs; [congruence|simpl; lia]).
  assert (0 <= IZR (Z.of_nat (count_occ value_eq_dec (map (cell i) rs)
                                        (probe k))))%R
    by (apply IZR_le; lia).
  assert (0 < / IZR (Z.of_nat (List.length rs)))%R
    by (apply Rinv_0_lt_compat; assumption).
  unfold Rdiv. nra.
Qed.

Lemma rows_of_key (i : nat) (rs : list (list value)) (k : value) :
  In k (unique (map (cell i) rs)) -> rs <> [].
Proof.
  intros Hk E. subst rs. apply (proj1 (unique_In _ _)) in Hk. destruct Hk.
Qed.

(** X11.  The label column is looked up once per group of the feature: with a
    label the table does not have, a table with rows raises [KeyError] for
    the label, and a table without rows returns [0] all the same. *)
Theorem feature_entropy_missing_label (df : DataFrame)
    (feature label : string) (column : list value) :
  getitem df feature = Ok column -> ~ In label (columns df) ->
  feature_entropy df feature label
  = match column with
    | [] => Ok (Fin 0)
    | _ :: _ => Raise (KeyError label)
    end.
Proof.
  intros Hget Hn. destruct (getitem_inv _ _ _ Hget) as (i & Hi & Hcol).
  unfold feature_entropy, groupby. rewrite Hget. cbn [bind].
  rewrite mapM_map. destruct column as [|a l].
  - reflexivity.
  - destruct (unique (a :: l)) as [|k ks] eqn:Hu;
      [exfalso; exact (unique_nonempty a l Hu)|].
    cbn [mapM].
    assert (Hne : rows df <> [])
      by (intros E; rewrite E in Hcol; discriminate).
    rewrite (p_fin df feature i _ Hi Hne). cbn [bind].
    unfold _e, groupby, getitem, loc. cbn [columns].
    unfold get_loc.
    rewrite (proj1 (count_occ_not_In string_dec (columns df) label) Hn).
    reflexivity.
Qed.

Lemma feature_entropy_missing_label_examples :
  (getitem weather "Weather" = Ok [VStr "Sunny"; VStr "Rainy"] /\
   ~ In "Play" (columns weather) /\
   feature_entropy weather "Weather" "Play" = Raise (KeyError "Play")) /\
  (getitem weather_no_rows "Weather" = Ok [] /\
   ~ In "Play" (columns weather_no_rows) /\
   feature_entropy weather_no_rows "Weather" "Play" = Ok (Fin 0)).
Proof.
  assert (H1 : getitem weather "Weather" = Ok [VStr "Sunny"; VStr "Rainy"])
    by reflexivity.
  assert (H2 : ~ In "Play" (columns weather))
    by (simpl; intuition discriminate).
  assert (H3 : getitem weather_no_rows "Weather" = Ok []) by reflexivity.
  assert (H4 : ~ In "Play" (columns weather_no_rows))
    by (simpl; intuition discriminate).
  split.
  - split; [exact H1|]. split; [exact H2|].
    exact (feature_entropy_missing_label weather "Weather" "Play" _ H1 H2).
  - split; [exact H3|]. split; [exact H4|].
    exact (feature_entropy_missing_label weather_no_rows "Weather" "Play" _
             H3 H4).
Defined.

(** X12.  With the feature and the label among the columns, the feature entropy
    is a finite number and never negative. *)
Theorem feature_entropy_nonneg (df : DataFrame) (feature label : string)
    (fcol lcol : list value) :
  getitem df feature = Ok fcol -> getitem df label = Ok lcol ->
  exists e, feature_entropy df feature label = Ok (Fin e) /\ (0 <= e)%R.
Proof.
  intros Hf Hl.
  destruct (getitem_inv _ _ _ Hf) as (i & Hi & _).
  destruct (getitem_inv _ _ _ Hl) as (j & Hj & _).
  rewrite (feature_entropy_fin df feature label i j Hi Hj).
  eexists. split; [reflexivity|].
  unfold weighted_entropy. apply Rsum_nonneg. intros k Hk.
  unfold weighted_term. apply Rmult_le_pos.
  - apply weight_nonneg. exact (rows_of_key i (rows df) k Hk).
  - apply shannon_nonneg, label_counts_pos.
Qed.

Lemma feature_entropy_nonneg_weather :
  getitem weather "Weather" = Ok [VStr "Sunny"; VStr "Rainy"] /\
  getitem weather "Wind" = Ok [VStr "Weak"; VStr "Weak"] /\
  exists e, feature_entropy weather "Weather" "Wind" = Ok (Fin e) /\ (0 <= e)%R.
Proof.
  assert (H1 : getitem weather "Weather" = Ok [VStr "Sunny"; VStr "Rainy"])
    by reflexivity.
  assert (H2 : getitem weather "Wind" = Ok [VStr "Weak"; VStr "Weak"])
    by reflexivity.
  split; [exact H1|]. split; [exact H2|].
  exact (feature_entropy_nonneg weather "Weather" "Wind" _ _ H1 H2).
Defined.

Lemma shannon_pure_group (j : nat) (rs : list (list value)) (v : value) :
  rs <> [] -> (forall r, In r rs -> cell j r = v) ->
  shannon (label_counts j rs) = 0%R.
Proof.
  intros Hne Hall. unfold label_counts.
  assert (Hc : Forall (eq v) (map (cell j) rs)).
  { apply Forall_forall. intros x Hx. apply in_map_iff in Hx.
    destruct Hx as [r [<- Hr]]. symmetry. apply Hall, Hr. }
  assert (Hne' : map (cell j) rs <> [])
    by (destruct rs; [congruence|discriminate]).
  rewrite (unique_constant v _ Hne' Hc).
  cbn [map]. rewrite count_occ_constant by exact Hc.
  apply shannon_single. rewrite length_map.
  destruct rs; [congruence|simpl; lia].
Qed.

Lemma weighted_entropy_pure (probe : value -> value) (i j : nat)
    (rs : list (list value)) :
  (forall r1 r2, In r1 rs -> In r2 rs ->
                 cell i r1 = cell i r2 -> cell j r1 = cell j r2) ->
  weighted_entropy probe i j rs = 0%R.
Proof.
  intros Hfd. unfold weighted_entropy. apply Rsum_zero. intros k Hk.
  unfold weighted_term.
  apply (proj1 (unique_In _ _)) in Hk. apply in_map_iff in Hk.
  destruct Hk as [r0 [Hr0 Hin0]].
  rewrite (shannon_pure_group j _ (cell j r0)).
  - lra.
  - intros E.
    assert (Hin : In r0 (filter (fun r => value_eqb (cell i r) k) rs)).
    { apply filter_In. split; [exact Hin0|].
      unfold value_eqb. destruct (value_eq_dec (cell i r0) k); congruence. }
    rewrite E in Hin. destruct Hin.
  - intros r Hr. apply filter_In in Hr. destruct Hr as [Hr Hk].
    unfold value_eqb in Hk. destruct (value_eq_dec (cell i r) k); [|discriminate].
    apply Hfd; congruence.
Qed.

Lemma combine_columns (i j : nat) (rs : list (list value)) :
  combine (map (cell i) rs) (map (cell j) rs)
  = map (fun r => (cell i r, cell j r)) rs.
Proof.
  induction rs as [|r rs IH]; [reflexivity|]. simpl. rewrite IH. reflexivity.
Qed.

(** X13.  A perfect split: when the rows that share a feature value share their
    label, the feature entropy is exactly [0]. *)
Theorem feature_entropy_perfect_split (df : DataFrame)
    (feature label : string) (fcol lcol : list value) :
  getitem df feature = Ok fcol -> getitem df label = Ok lcol ->
  (forall a b b', In (a, b) (combine fcol lcol) ->
                  In (a, b') (combine fcol lcol) -> b = b') ->
  feature_entropy df feature label = Ok (Fin 0).
Proof.
  intros Hf Hl Hfd.
  destruct (getitem_inv _ _ _ Hf) as (i & Hi & ->).
  destruct (getitem_inv _ _ _ Hl) as (j & Hj & ->).
  rewrite (feature_entropy_fin df feature label i j Hi Hj).
  rewrite weighted_entropy_pure; [reflexivity|].
  intros r1 r2 H1 H2 E. rewrite combine_columns in Hfd.
  apply (Hfd (cell i r1)).
  - apply in_map_iff. exists r1. split; [reflexivity|exact H1].
  - apply in_map_iff. exists r2. split; [rewrite E; reflexivity|exact H2].
Qed.

Lemma feature_entropy_perfect_split_example :
  getitem sunny_rainy "Weather"
  = Ok [VStr "Sunny"; VStr "Rainy"; VStr "Sunny"] /\
  getitem sunny_rainy "Play" = Ok [VStr "Yes"; VStr "No"; VStr "Yes"] /\
  (forall a b b',
     In (a, b) (combine [VStr "Sunny"; VStr "Rainy"; VStr "Sunny"]
                        [VStr "Yes"; VStr "No"; VStr "Yes"]) ->
     In (a, b') (combine [VStr "Sunny"; VStr "Rainy"; VStr "Sunny"]
                         [VStr "Yes"; VStr "No"; VStr "Yes"]) -> b = b') /\
  feature_entropy sunny_rainy "Weather" "Play" = Ok (Fin 0).
Proof.
  assert (H1 : getitem sunny_rainy "Weather"
               = Ok [VStr "Sunny"; VStr "Rainy"; VStr "Sunny"]) by reflexivity.
  assert (H2 : getitem sunny_rainy "Play"
               = Ok [VStr "Yes"; VStr "No"; VStr "Yes"]) by reflexivity.
  assert (H3 : forall a b b',
    In (a, b) (combine [VStr "Sunny"; VStr "Rainy"; VStr "Sunny"]
                       [VStr "Yes"; VStr "No"; VStr "Yes"]) ->
    In (a, b') (combine [VStr "Sunny"; VStr "Rainy"; VStr "Sunny"]
                        [VStr "Yes"; VStr "No"; VStr "Yes"]) -> b = b').
  { simpl. intros a b b' Hb Hb'.
    repeat match goal with
           | H : _ \/ _ |- _ => destruct H
           | H : False |- _ => destruct H
           | H : (_, _) = (_, _) |- _ => inversion H; clear H; subst
           end; try reflexivity; discriminate. }
  split; [exact H1|]. split; [exact H2|]. split; [exact H3|].
  exact (feature_entropy_perfect_split sunny_rainy "Weather" "Play" _ _
           H1 H2 H3).
Defined.

(** X14.  Scored against itself, the label column has entropy [0]: left in the
    ranking it would be a minimum, which is why its entry is deleted before
    [min]. *)
Theorem feature_entropy_of_label (df : DataFrame) (label : string)
    (column : list value) :
  getitem df label = Ok column ->
  feature_entropy df label label = Ok (Fin 0).
Proof.
  intros Hl. destruct (getitem_inv _ _ _ Hl) as (j & Hj & _).
  rewrite (feature_entropy_fin df label label j j Hj Hj).
  rewrite weighted_entropy_pure; [reflexivity|].
  intros r1 r2 _ _ E. exact E.
Qed.

Lemma feature_entropy_of_label_example :
  getitem sunny_rainy "Play" = Ok [VStr "Yes"; VStr "No"; VStr "Yes"] /\
  feature_entropy sunny_rainy "Play" "Play" = Ok (Fin 0).
Proof.
  assert (H : getitem sunny_rainy "Play"
              = Ok [VStr "Yes"; VStr "No"; VStr "Yes"]) by reflexivity.
  split; [exact H|]. exact (feature_entropy_of_label sunny_rainy "Play" _ H).
Defined.

(** X15.  A feature column that holds no string scores [0] whatever the labels:
    the probability is asked for the string [str n], which no cell
    equals. *)
Theorem feature_entropy_no_string_cell (df : DataFrame)
    (feature label : string) (fcol lcol : list value) :
  getitem df feature = Ok fcol -> getitem df label = Ok lcol ->
  Forall (fun v => ~ is_str v) fcol ->
  feature_entropy df feature label = Ok (Fin 0).
Proof.
  intros Hf Hl Hns.
  destruct (getitem_inv _ _ _ Hf) as (i & Hi & ->).
  destruct (getitem_inv _ _ _ Hl) as (j & Hj & _).
  rewrite (feature_entropy_fin df feature label i j Hi Hj).
  do 2 f_equal. unfold weighted_entropy. apply Rsum_zero. intros k _.
  unfold weighted_term.
  rewrite (proj1 (count_occ_not_In value_eq_dec _ (as_str k))).
  - unfold Rdiv. simpl. lra.
  - intros Hin. rewrite Forall_forall in Hns.
    apply (Hns _ Hin). exists (str k). reflexivity.
Qed.

Lemma feature_entropy_no_string_cell_coded :
  getitem coded "f" = Ok [VInt 0; VInt 0] /\
  getitem coded "y" = Ok [VStr "a"; VStr "b"] /\
  Forall (fun v => ~ is_str v) [VInt 0; VInt 0] /\
  feature_entropy coded "f" "y" = Ok (Fin 0).
Proof.
  assert (H1 : getitem coded "f" = Ok [VInt 0; VInt 0]) by reflexivity.
  assert (H2 : getitem coded "y" = Ok [VStr "a"; VStr "b"]) by reflexivity.
  assert (H3 : Forall (fun v => ~ is_str v) [VInt 0; VInt 0])
    by (repeat constructor; intros [s Hs]; discriminate Hs).
  split; [exact H1|]. split; [exact H2|]. split; [exact H3|].
  exact (feature_entropy_no_string_cell coded "f" "y" _ _ H1 H2 H3).
Defined.

(** ** The order of the rows *)

Lemma Permutation_filter' {A} (f : A -> bool) (l l' : list A) :
  Permutation l l' -> Permutation (filter f l) (filter f l').
Proof.
  induction 1 as [|x l l' _ IH|x y l|l l' l'' _ IH1 _ IH2]; simpl.
  - constructor.
  - destruct (f x); [apply perm_skip|]; exact IH.
  - destruct (f x), (f y); try apply Permutation_refl. apply perm_swap.
  - eapply perm_trans; eassumption.
Qed.

Lemma Rsum_perm (l l' : list R) : Permutation l l' -> Rsum l = Rsum l'.
Proof.
  unfold Rsum.
  induction 1 as [|x l l' _ IH|x y l|l l' l'' _ IH1 _ IH2]; simpl;
    try lra; congruence.
Qed.

Lemma sum_int_perm (l l' : list Z) :
  Permutation l l' -> sum_int l = sum_int l'.
Proof.
  induction 1 as [|x l l' _ IH|x y l|l l' l'' _ IH1 _ IH2].
  - reflexivity.
  - rewrite !sum_int_cons, IH. reflexivity.
  - rewrite !sum_int_cons. lia.
  - congruence.
Qed.

Lemma shannon_perm (c c' : list Z) :
  Permutation c c' -> shannon c = shannon c'.
Proof.
  intros Hp. unfold shannon. rewrite (sum_int_perm c c' Hp).
  f_equal. apply Rsum_perm, Permutation_map, Hp.
Qed.

Lemma unique_perm (l l' : list value) :
  Permutation l l' -> Permutation (unique l) (unique l').
Proof.
  intros Hp. apply NoDup_Permutation; try apply unique_NoDup.
  intros x. rewrite !unique_In. split; intros H.
  - eapply Permutation_in; eassumption.
  - eapply Permutation_in; [apply Permutation_sym|]; eassumption.
Qed.

Lemma label_counts_perm (j : nat) (rs rs' : list (list value)) :
  Permutation rs rs' ->
  Permutation (label_counts j rs) (label_counts j rs').
Proof.
  intros Hp. unfold label_counts.
  assert (Hc : Permutation (map (cell j) rs) (map (cell j) rs'))
    by (apply Permutation_map, Hp).
  rewrite (map_ext _ (fun k => Z.of_nat (count_occ value_eq_dec
                                           (map (cell j) rs') k))).
  - apply Permutation_map, unique_perm, Hc.
  - intros k. f_equal.
    apply (proj1 (Permutation_count_occ value_eq_dec _ _) Hc).
Qed.

Lemma weighted_entropy_perm (probe : value -> value) (i j : nat)
    (rs rs' : list (list value)) :
  Permutation rs rs' ->
  weighted_entropy probe i j rs = weighted_entropy probe i j rs'.
Proof.
  intros Hp. unfold weighted_entropy.
  assert (Hc : Permutation (map (cell i) rs) (map (cell i) rs'))
    by (apply Permutation_map, Hp).
  rewrite (map_ext (weighted_term probe i j rs)
                   (weighted_term probe i j rs')).
  - apply Rsum_perm, Permutation_map, unique_perm, Hc.
  - intros k. unfold weighted_term.
    rewrite (proj1 (Permutation_count_occ value_eq_dec _ _) Hc (probe k)).
    rewrite (Permutation_length Hp).
    rewrite (shannon_perm _ _
               (label_counts_perm j _ _
                  (Permutation_filter'
                     (fun r => value_eqb (cell i r) k) _ _ Hp))).
    reflexivity.
Qed.

Lemma feature_entropy_label_error (df : DataFrame) (feature label : string)
    (i : nat) (e : exn) :
  get_loc (columns df) feature = Ok i ->
  get_loc (columns df) label = Raise e ->
  feature_entropy df feature label
  = match rows df with
    | [] => Ok (Fin 0)
    | _ :: _ => Raise e
    end.
Proof.
  intros Hi He. unfold feature_entropy, groupby, getitem.
  rewrite Hi. cbn [bind]. rewrite mapM_map.
  destruct (rows df) as [|r rs] eqn:Hrows; [reflexivity|].
  cbn [map].
  destruct (unique (cell i r :: map (cell i) rs)) as [|k ks] eqn:Hu;
    [exfalso; exact (unique_nonempty _ _ Hu)|].
  cbn [mapM].
  assert (Hne : rows df <> []) by (rewrite Hrows; discriminate).
  rewrite (p_fin df feature i _ Hi Hne). cbn [bind].
  unfold _e, groupby, getitem, loc. cbn [columns]. rewrite He. reflexivity.
Qed.

(** X16.  [p], [_e] and [feature_entropy] do not depend on the order of the
    rows: two tables with the same columns whose rows are a permutation of
    each other get the same results, exceptions included. *)
Theorem row_order_irrelevant (d1 d2 : DataFrame) (feature label : string)
    (v : value) :
  columns d1 = columns d2 -> Permutation (rows d1) (rows d2) ->
  p d1 feature v = p d2 feature v /\
  _e d1 label = _e d2 label /\
  feature_entropy d1 feature label = feature_entropy d2 feature label.
Proof.
  intros Hcols Hp.
  assert (Hlen : len d1 = len d2)
    by (unfold len; rewrite (Permutation_length Hp); reflexivity).
  split; [|split].
  - unfold p, getitem. rewrite <- Hcols.
    destruct (get_loc (columns d1) feature) as [i|e]; [|reflexivity].
    cbn [bind]. rewrite !len_loc_eq_mask, Hlen.
    rewrite (proj1 (Permutation_count_occ value_eq_dec _ _)
               (Permutation_map (cell i) Hp) v).
    reflexivity.
  - destruct (get_loc (columns d1) label) as [j|e] eqn:Hj.
    + rewrite (_e_fin d1 label j Hj).
      rewrite (_e_fin d2 label j) by (rewrite <- Hcols; exact Hj).
      do 2 f_equal. apply shannon_perm, label_counts_perm, Hp.
    + unfold _e, groupby, getitem. rewrite <- Hcols, Hj. reflexivity.
  - destruct (get_loc (columns d1) feature) as [i|e] eqn:Hi.
    + destruct (get_loc (columns d1) label) as [j|e] eqn:Hj.
      * rewrite (feature_entropy_fin d1 feature label i j Hi Hj).
        rewrite (feature_entropy_fin d2 feature label i j)
          by (rewrite <- Hcols; assumption).
        do 2 f_equal. apply weighted_entropy_perm, Hp.
      * rewrite (feature_entropy_label_error d1 feature label i e Hi Hj).
        rewrite (feature_entropy_label_error d2 feature label i e)
          by (rewrite <- Hcols; assumption).
        destruct (rows d1) as [|r1 rs1], (rows d2) as [|r2 rs2];
          try reflexivity.
        -- apply Permutation_nil in Hp. discriminate.
        -- apply Permutation_sym, Permutation_nil in Hp. discriminate.
    + unfold feature_entropy, groupby, getitem. rewrite <- Hcols, Hi.
      reflexivity.
Qed.

Lemma row_order_irrelevant_example :
  columns sunny_rainy = columns sunny_rainy_shuffled /\
  Permutation (rows sunny_rainy) (rows sunny_rainy_shuffled) /\
  p sunny_rainy "Weather" (VStr "Sunny")
  = p sunny_rainy_shuffled "Weather" (VStr "Sunny") /\
  _e sunny_rainy "Play" = _e sunny_rainy_shuffled "Play" /\
  feature_entropy sunny_rainy "Weather" "Play"
  = feature_entropy sunny_rainy_shuffled "Weather" "Play".
Proof.
  assert (H1 : columns sunny_rainy = columns sunny_rainy_shuffled)
    by reflexivity.
  assert (H2 : Permutation (rows sunny_rainy) (rows sunny_rainy_shuffled))
    by apply perm_swap.
  split; [exact H1|]. split; [exact H2|].
  exact (row_order_irrelevant sunny_rainy sunny_rainy_shuffled
           "Weather" "Play" (VStr "Sunny") H1 H2).
Defined.

(** ** More on [max_info_gain_feature] *)

(** X17.  What the call returns is the name of a column of the caller's table,
    and it is neither ["index"] nor the label's name. *)
Theorem best_feature_is_feature_column (h : heap) (df : ref) (y : Series)
    (f : string) :
  snd (max_info_gain_feature df y h) = Ok f ->
  In f (columns (objs h df)) /\ f <> "index" /\ f <> name y.
Proof.
  destruct (max_info_gain_feature_run h df y) as (h' & -> & _). cbn [snd].
  destruct (mem (name y) (columns (objs h df))); [discriminate|].
  destruct (mem "index" (name y :: columns (objs h df))); [|discriminate].
  intros H. apply select_keys in H. destruct H as [Hin Hne].
  apply drop_col_columns in Hin. destruct Hin as [Hin Hidx].
  cbn [insert_col columns insert_at firstn skipn app] in Hin.
  destruct Hin as [E|Hin]; [congruence|]. auto.
Qed.

Lemma best_feature_is_feature_column_weather :
  snd (max_info_gain_feature 0 play (heap_of weather_only)) = Ok "Weather" /\
  In "Weather" (columns (objs (heap_of weather_only) 0)) /\
  "Weather" <> "index" /\ "Weather" <> name play.
Proof.
  assert (H : snd (max_info_gain_feature 0 play (heap_of weather_only))
              = Ok "Weather").
  { apply (run_single_feature (heap_of weather_only) 0 play).
    - repeat constructor; simpl; intuition discriminate.
    - left; reflexivity.
    - simpl; intuition discriminate.
    - reflexivity. }
  split; [exact H|].
  exact (best_feature_is_feature_column (heap_of weather_only) 0 play
           "Weather" H).
Defined.

(** X18.  A label vector named ["index"] can never be used: on a table with an
    ["index"] column the insertion is refused, and on any other table the
    label column itself is dropped and the ranking fails. *)
Theorem best_feature_label_named_index (h : heap) (df : ref) (y : Series) :
  name y = "index" ->
  exists e, snd (max_info_gain_feature df y h) = Raise e.
Proof.
  intros Hname. destruct (max_info_gain_feature_run h df y) as (h' & -> & _).
  cbn [snd].
  destruct (mem (name y) (columns (objs h df))); [eexists; reflexivity|].
  destruct (mem "index" (name y :: columns (objs h df)));
    [|eexists; reflexivity].
  apply select_label_absent. rewrite Hname. intros H.
  apply drop_col_columns in H. destruct H as [_ H]. congruence.
Qed.

Lemma best_feature_label_named_index_weather :
  name index_series = "index" /\
  exists e,
    snd (max_info_gain_feature 0 index_series (heap_of weather_no_index))
    = Raise e.
Proof.
  split; [reflexivity|].
  exact (best_feature_label_named_index (heap_of weather_no_index) 0
           index_series eq_refl).
Defined.

(** ** Sorting before [min] *)

Section SortThenMin.
Context {A : Type}.
Variable r : A -> R.

Lemma level_is_level_set (c : R) :
  level_set (fun x => Fin (r x)) (level r c).
Proof.
  intros x y. unfold level. cbn [fltb].
  destruct (Req_dec_T (r x) c) as [->|]; [|discriminate]. intros _.
  destruct (Rlt_dec (r y) c); [|discriminate]. intros _.
  destruct (Req_dec_T (r y) c); [lra|reflexivity].
Qed.

Lemma min_level_head (l : list A) (m : A) :
  min (fun x => Fin (r x)) l = Ok m ->
  (forall y, In y l -> (r m <= r y)%R) /\
  exists t, filter (level r (r m)) l = m :: t.
Proof.
  destruct l as [|x l]; [discriminate|]. cbn [min]. intros H.
  inversion H as [Hm]. clear H.
  destruct (min_from_first r x l) as (l1 & l2 & Heq & H1 & H2).
  rewrite Hm in *. rewrite Heq. split.
  - intros y Hy. apply in_app_or in Hy. destruct Hy as [Hy|[<-|Hy]].
    + apply Rlt_le, H1, Hy.
    + lra.
    + apply H2, Hy.
  - rewrite filter_app, filter_none.
    + cbn [filter app]. unfold level at 1.
      destruct (Req_dec_T (r m) (r m)); [|congruence]. eexists; reflexivity.
    + intros y Hy. specialize (H1 y Hy). unfold level.
      destruct (Req_dec_T (r y) (r m)); [lra|reflexivity].
Qed.

Lemma min_sorted_filter (Q : A -> bool) (l : list A) :
  min (fun x => Fin (r x)) (filter Q (sorted (fun x => Fin (r x)) l))
  = min (fun x => Fin (r x)) (filter Q l).
Proof.
  set (key := fun x => Fin (r x)).
  assert (Hp : Permutation (filter Q (sorted key l)) (filter Q l))
    by (apply Permutation_filter', sorted_perm).
  destruct (min key (filter Q (sorted key l))) as [m1|e1] eqn:E1;
    destruct (min key (filter Q l)) as [m2|e2] eqn:E2.
  - destruct (min_level_head _ _ E1) as (Hmin1 & t1 & Ht1).
    destruct (min_level_head _ _ E2) as (Hmin2 & t2 & Ht2).
    assert (Hc : r m1 = r m2).
    { apply Rle_antisym.
      - apply Hmin1. eapply Permutation_in; [apply Permutation_sym, Hp|].
        eapply min_In, E2.
      - apply Hmin2. eapply Permutation_in; [apply Hp|].
        eapply min_In, E1. }
    rewrite filter_comm, sorted_stable in Ht1 by apply level_is_level_set.
    rewrite filter_comm, Hc, Ht2 in Ht1. inversion Ht1. reflexivity.
  - exfalso. destruct (filter Q l) as [|x l2]; [|discriminate E2].
    apply Permutation_sym, Permutation_nil in Hp. rewrite Hp in E1.
    discriminate E1.
  - exfalso. destruct (filter Q (sorted key l)) as [|x l1] eqn:E;
      [|discriminate E1].
    apply Permutation_nil in Hp. rewrite Hp in E2. discriminate E2.
  - destruct (filter Q l) as [|x l2]; [|discriminate E2].
    destruct (filter Q (sorted key l)) as [|x l1]; [|discriminate E1].
    rewrite <- E1, <- E2. reflexivity.
Qed.

Lemma sorted_ext (key key' : A -> float) (l : list A) :
  (forall x, In x l -> key x = key' x) -> sorted key l = sorted key' l.
Proof.
  induction l as [|a l IH]; intros H; [reflexivity|].
  cbn [sorted]. rewrite <- IH by (intros x Hx; apply H; right; exact Hx).
  assert (Hs : forall x, In x (sorted key l) -> key x = key' x).
  { intros x Hx. apply H. right.
    eapply Permutation_in; [apply sorted_perm|exact Hx]. }
  revert Hs. generalize (sorted key l) as s. intros s Hs.
  induction s as [|b s IHs]; [reflexivity|].
  cbn [insert_sorted].
  rewrite (H a) by (left; reflexivity).
  rewrite (Hs b) by (left; reflexivity).
  rewrite IHs by (intros x Hx; apply Hs; right; exact Hx). reflexivity.
Qed.
End SortThenMin.

(** X20.  Sorting the ranking before taking [min] does not change the result:
    on a table with distinct column names that has the label column, lines
    88 to 91 return what they would return without the call to
    [sorted]. *)
Theorem sorting_is_redundant (d : DataFrame) (label : string) :
  NoDup (columns d) -> In label (columns d) ->
  select d label
  = (items <- mapM (fun f => e <- feature_entropy d f label ;; Ok (f, e))
                   (columns d) ;;
     entropy_values <- dict_del (dict_of items) label ;;
     min (dict_get entropy_values) (dict_keys entropy_values)).
Proof.
  intros Hnd Hlabel.
  rewrite (select_candidates d label Hnd Hlabel).
  rewrite (items_ok d label Hnd Hlabel). cbn [bind].
  rewrite (dict_of_nodup (ranking_items d label))
    by (rewrite items_keys; exact Hnd).
  unfold dict_del.
  assert (Hm : dict_mem (ranking_items d label) label = true)
    by (apply dict_mem_In; unfold dict_keys; rewrite items_keys; exact Hlabel).
  rewrite Hm. cbn [bind].
  set (Q := fun kv : string * float => negb (String.eqb (fst kv) label)).
  assert (Hfin : forall kv, In kv (ranking_items d label) ->
                   snd kv = Fin (fval (snd kv))).
  { intros kv Hkv. apply in_map_iff in Hkv. destruct Hkv as [f [<- _]].
    reflexivity. }
  unfold candidates, ranked. fold Q.
  rewrite (sorted_ext snd (fun kv => Fin (fval (snd kv)))) by exact Hfin.
  rewrite (min_sorted_filter (fun kv => fval (snd kv)) Q).
  unfold dict_keys. rewrite min_map. f_equal.
  apply min_ext. intros [k v] Hkv. cbn [fst snd].
  rewrite (dict_get_In (filter Q (ranking_items d label)) k v).
  - apply filter_In in Hkv. destruct Hkv as [Hkv _].
    symmetry. apply (Hfin (k, v) Hkv).
  - apply NoDup_map_filter. rewrite items_keys; assumption.
  - exact Hkv.
Qed.

Lemma sorting_is_redundant_example :
  NoDup (columns sunny_rainy) /\ In "Play" (columns sunny_rainy) /\
  select sunny_rainy "Play"
  = (items <- mapM (fun f => e <- feature_entropy sunny_rainy f "Play" ;;
                             Ok (f, e))
                   (columns sunny_rainy) ;;
     entropy_values <- dict_del (dict_of items) "Play" ;;
     min (dict_get entropy_values) (dict_keys entropy_values)).
Proof.
  assert (H1 : NoDup (columns sunny_rainy))
    by (repeat constructor; simpl; intuition discriminate).
  assert (H2 : In "Play" (columns sunny_rainy))
    by (right; left; reflexivity).
  split; [exact H1|]. split; [exact H2|].
  exact (sorting_is_redundant sunny_rainy "Play" H1 H2).
Defined.
